(** * RSocketTcpClient: a TCP transport for RSocket, verified over a shallow embedding

    The development follows [packages/rsocket-tcp-client/src/RSocketTcpClient.js]:
    the connector [RSocketTcpClient.connect] and the private class
    [TcpDuplexConnection] that reassembles frames from the socket's byte
    stream, broadcasts them to the registered receivers, writes outbound
    frames, and owns the close / error life cycle.

    Methods mutate [this], call back into subscribers and may throw, so they
    are written in a small monad that threads the connection, accumulates the
    externally visible calls in order, and carries JavaScript exceptions.

    What lies outside the file is kept outside the model: the codec of
    [rsocket-core] and [Socket.write] are parameters, and a call on a
    subscriber or on a subscription ([onNext], [onError], [onComplete],
    [request], [cancel]) is recorded as an effect; such a callback is taken to
    return normally and not to call back into the connection while it runs. *)

From Stdlib Require Import String.
From Stdlib Require Import Strings.Byte.
From Stdlib Require Import List Bool Arith NArith Lia.
Import ListNotations.

Set Implicit Arguments.

(** ** Values of the JavaScript side *)

(** A node [Buffer]: a sequence of bytes.  [createBuffer 0] is the empty one and
    [Buffer.concat [a, b]] is [a ++ b]. *)
Definition Buffer : Type := list byte.

Definition createBuffer (size : nat) : Buffer := repeat x00 size.

(** A JavaScript [Error], identified by its message. *)
Inductive Error : Type :=
| mkError (message : string).

(** The outcome of evaluating a JavaScript expression: a value, or a thrown error. *)
Inductive Completion (A : Type) : Type :=
| Return (a : A)
| Throw (e : Error).
Arguments Return {A} a.
Arguments Throw {A} e.

(** Subscribers ([ISubscriber<Frame>]) and subscriptions ([ISubscription])
    are objects compared by identity; an identity is a number. *)
Definition Subscriber : Type := nat.
Definition Subscription : Type := nat.

(** [Number.MAX_SAFE_INTEGER], 2^53 - 1. *)
Definition MAX_SAFE_INTEGER : N := 9007199254740991.

(** ** The ECMAScript [Set], keyed by identity

    A [Set] iterates in insertion order, [add] of a member changes nothing,
    [delete] removes the member. *)
Module JSSet.
Definition t : Type := list nat.
Definition empty : t := [].
Definition has (x : nat) (s : t) : bool := existsb (Nat.eqb x) s.
Definition add (x : nat) (s : t) : t := if has x s then s else s ++ [x].
Definition delete (x : nat) (s : t) : t :=
  filter (fun y => negb (Nat.eqb x y)) s.
Definition clear (s : t) : t := empty.
(** the members, in the order [forEach] visits them *)
Definition values (s : t) : list nat := s.
End JSSet.

(** ** The socket ([net.Socket]) as the transport uses it *)

Inductive EventName : Type :=
| connect_event | data_event | end_event | error_event | close_event.

(** What the socket emits; [data] carries the chunk and [error] the error. *)
Inductive SocketEvent : Type :=
| EvConnect
| EvData (chunk : Buffer)
| EvEnd
| EvError (error : Error)
| EvClose.

Definition event_name (ev : SocketEvent) : EventName :=
  match ev with
  | EvConnect => connect_event
  | EvData _ => data_event
  | EvEnd => end_event
  | EvError _ => error_event
  | EvClose => close_event
  end.

Definition EventName_eqb (a b : EventName) : bool :=
  match a, b with
  | connect_event, connect_event
  | data_event, data_event
  | end_event, end_event
  | error_event, error_event
  | close_event, close_event => true
  | _, _ => false
  end.

(** The functions this file registers on a socket: the two closures of
    [connect] and the four bound methods of [TcpDuplexConnection]. *)
Inductive Listener : Type :=
| connect_onError
| connect_onComplete
| conn_close
| conn_handleData
| conn_handleEnd
| conn_handleError.

Record Registration : Type := {
  reg_event : EventName;
  reg_listener : Listener;
  reg_once : bool
}.

(** The state of a socket that this file can change: its listeners
    ([on], [once], [removeAllListeners]) and whether [end()] was called. *)
Record Socket : Type := {
  listeners : list Registration;
  ended : bool
}.

(** [net.connect(options)]: a socket with no listener yet. *)
Definition net_connect : Socket := {| listeners := []; ended := false |}.

Definition socket_on (ev : EventName) (l : Listener) (s : Socket) : Socket :=
  {| listeners := listeners s ++ [{| reg_event := ev; reg_listener := l; reg_once := false |}];
     ended := ended s |}.

Definition socket_once (ev : EventName) (l : Listener) (s : Socket) : Socket :=
  {| listeners := listeners s ++ [{| reg_event := ev; reg_listener := l; reg_once := true |}];
     ended := ended s |}.

Definition socket_removeAllListeners (s : Socket) : Socket :=
  {| listeners := []; ended := ended s |}.

Definition socket_end (s : Socket) : Socket :=
  {| listeners := listeners s; ended := true |}.

(** the registrations an emitted event reaches, in registration order *)
Definition listeners_of (ev : EventName) (s : Socket) : list Registration :=
  filter (fun r => EventName_eqb (reg_event r) ev) (listeners s).

Definition Listener_eqb (a b : Listener) : bool :=
  match a, b with
  | connect_onError, connect_onError
  | connect_onComplete, connect_onComplete
  | conn_close, conn_close
  | conn_handleData, conn_handleData
  | conn_handleEnd, conn_handleEnd
  | conn_handleError, conn_handleError => true
  | _, _ => false
  end.

Definition Registration_eqb (a b : Registration) : bool :=
  EventName_eqb (reg_event a) (reg_event b)
  && Listener_eqb (reg_listener a) (reg_listener b)
  && Bool.eqb (reg_once a) (reg_once b).

(** [removeListener]: the first registration equal to [r] goes *)
Fixpoint remove_registration (r : Registration) (l : list Registration)
  : list Registration :=
  match l with
  | [] => []
  | r' :: l' => if Registration_eqb r' r then l' else r' :: remove_registration r l'
  end.

(** a [once] registration is taken off the socket before its listener is called *)
Definition drop_once (r : Registration) (s : Socket) : Socket :=
  if reg_once r
  then {| listeners := remove_registration r (listeners s); ended := ended s |}
  else s.

(** ** The collaborators that are imported

    [deserializeFrames] and [serializeFrameWithLength] come from
    [rsocket-core] and [Socket.write] from node; both codec functions and the
    write may throw.  They are the parameters of the development. *)
Class RSocketCore (Frame Encoders : Type) : Type := {
  deserializeFrames : Buffer -> option Encoders -> Completion (list Frame * Buffer);
  serializeFrameWithLength : Frame -> option Encoders -> Completion Buffer;
  (** the error [socket.write(buffer)] throws, if it throws *)
  socket_write_throws : Socket -> Buffer -> option Error
}.

Section Model.

Context {Frame Encoders SocketOptions : Type}.
Context `{Core : RSocketCore Frame Encoders}.

(** ** TcpDuplexConnection *)

Record TcpDuplexConnection : Type := {
  _active : bool;
  _buffer : Buffer;
  (** the [Deferred]: [true] once [resolve()] ran *)
  _close : bool;
  _encoders : option Encoders;
  _receivers : JSSet.t;
  _senders : JSSet.t;
  _socket : Socket;
  _options : SocketOptions
}.

(** ** What the outside observes, in the order it happens *)
Inductive Effect : Type :=
(* calls on a receiver (the subject of a [receive()] subscription) *)
| SubjectOnSubscribe (subject : Subscriber)
| OnNext (subscriber : Subscriber) (frame : Frame)
| OnError (subscriber : Subscriber) (error : Error)
| OnComplete (subscriber : Subscriber)
(* calls on the subscription of a producer given to [send] *)
| Request (subscription : Subscription) (n : N)
| Cancel (subscription : Subscription)
(* the close notification *)
| CloseResolve
(* calls on the socket *)
| SocketWrite (buffer : Buffer)
| SocketRemoveAllListeners
| SocketEnd
(* calls of the connector on the subscriber of its [Future] *)
| NetConnect (options : SocketOptions)
| FutureOnSubscribe
| FutureOnError (error : Error)
| FutureOnComplete (connection : TcpDuplexConnection).

(** ** The method monad: state [this], the effects so far, exceptions *)
Definition M (A : Type) : Type :=
  TcpDuplexConnection -> Completion A * TcpDuplexConnection * list Effect.

Definition ret {A} (a : A) : M A := fun this => (Return a, this, []).

Definition bind {A B} (m : M A) (k : A -> M B) : M B :=
  fun this =>
    match m this with
    | (Return a, this1, t1) =>
        match k a this1 with
        | (r, this2, t2) => (r, this2, t1 ++ t2)
        end
    | (Throw e, this1, t1) => (Throw e, this1, t1)
    end.

Definition throw {A} (e : Error) : M A := fun this => (Throw e, this, []).

(** [try { m } catch (error) { handler error }] *)
Definition try_catch {A} (m : M A) (handler : Error -> M A) : M A :=
  fun this =>
    match m this with
    | (Return a, this1, t1) => (Return a, this1, t1)
    | (Throw e, this1, t1) =>
        match handler e this1 with
        | (r, this2, t2) => (r, this2, t1 ++ t2)
        end
    end.

Definition get : M TcpDuplexConnection := fun this => (Return this, this, []).
Definition modify (f : TcpDuplexConnection -> TcpDuplexConnection) : M unit :=
  fun this => (Return tt, f this, []).
Definition call (e : Effect) : M unit := fun this => (Return tt, this, [e]).
Definition lift {A} (c : Completion A) : M A :=
  match c with
  | Return a => ret a
  | Throw e => throw e
  end.

Notation "x <- m ;; k" := (bind m (fun x => k))
  (at level 61, m at next level, right associativity).
Notation "m ;; k" := (bind m (fun _ => k))
  (at level 61, right associativity).

(** [l.forEach(f)] *)
Fixpoint forEach {A} (l : list A) (f : A -> M unit) : M unit :=
  match l with
  | [] => ret tt
  | x :: l' => f x ;; forEach l' f
  end.

(** assignments to the fields of [this] *)
Definition set_active (b : bool) (this : TcpDuplexConnection) :=
  {| _active := b; _buffer := _buffer this; _close := _close this;
     _encoders := _encoders this; _receivers := _receivers this;
     _senders := _senders this; _socket := _socket this;
     _options := _options this |}.
Definition set_buffer (b : Buffer) (this : TcpDuplexConnection) :=
  {| _active := _active this; _buffer := b; _close := _close this;
     _encoders := _encoders this; _receivers := _receivers this;
     _senders := _senders this; _socket := _socket this;
     _options := _options this |}.
Definition set_close (b : bool) (this : TcpDuplexConnection) :=
  {| _active := _active this; _buffer := _buffer this; _close := b;
     _encoders := _encoders this; _receivers := _receivers this;
     _senders := _senders this; _socket := _socket this;
     _options := _options this |}.
Definition set_receivers (s : JSSet.t) (this : TcpDuplexConnection) :=
  {| _active := _active this; _buffer := _buffer this; _close := _close this;
     _encoders := _encoders this; _receivers := s;
     _senders := _senders this; _socket := _socket this;
     _options := _options this |}.
Definition set_senders (s : JSSet.t) (this : TcpDuplexConnection) :=
  {| _active := _active this; _buffer := _buffer this; _close := _close this;
     _encoders := _encoders this; _receivers := _receivers this;
     _senders := s; _socket := _socket this;
     _options := _options this |}.
Definition set_socket (s : Socket) (this : TcpDuplexConnection) :=
  {| _active := _active this; _buffer := _buffer this; _close := _close this;
     _encoders := _encoders this; _receivers := _receivers this;
     _senders := _senders this; _socket := s;
     _options := _options this |}.

(** [constructor(options, encoders, socket)] *)
Definition new_TcpDuplexConnection
    (options : SocketOptions) (encoders : option Encoders) (socket : Socket)
  : TcpDuplexConnection :=
  {| _active := true;
     _buffer := createBuffer 0;
     _close := false;
     _encoders := encoders;
     _options := options;
     _receivers := JSSet.empty;
     _senders := JSSet.empty;
     _socket :=
       socket_on error_event conn_handleError
         (socket_on end_event conn_handleEnd
            (socket_on data_event conn_handleData
               (socket_on close_event conn_close socket))) |}.

(** [this._close.resolve()] *)
Definition close_resolve : M unit :=
  modify (set_close true) ;; call CloseResolve.

(** [this._socket.removeAllListeners()] and [this._socket.end()] *)
Definition this_socket_removeAllListeners : M unit :=
  modify (fun this => set_socket (socket_removeAllListeners (_socket this)) this) ;;
  call SocketRemoveAllListeners.
Definition this_socket_end : M unit :=
  modify (fun this => set_socket (socket_end (_socket this)) this) ;;
  call SocketEnd.

(** [this._socket.write(buffer)] *)
Definition this_socket_write (buffer : Buffer) : M unit :=
  this <- get ;;
  call (SocketWrite buffer) ;;
  match socket_write_throws (_socket this) buffer with
  | Some error => throw error
  | None => ret tt
  end.

Definition close : M unit :=
  this <- get ;;
  if negb (_active this) then ret tt
  else
    modify (set_active false) ;;
    close_resolve ;;
    this <- get ;;
    forEach (JSSet.values (_receivers this))
      (fun subscriber => call (OnComplete subscriber)) ;;
    modify (fun this => set_receivers (JSSet.clear (_receivers this)) this) ;;
    this <- get ;;
    forEach (JSSet.values (_senders this))
      (fun subscription => call (Cancel subscription)) ;;
    modify (fun this => set_senders (JSSet.clear (_senders this)) this) ;;
    this_socket_removeAllListeners ;;
    this_socket_end.

(** [onClose()] returns the promise of [_close]: is it resolved? *)
Definition onClose (this : TcpDuplexConnection) : bool := _close this.

Definition _handleError (error : Error) : M unit :=
  this <- get ;;
  forEach (JSSet.values (_receivers this))
    (fun subscriber => call (OnError subscriber error)) ;;
  close.

Definition _handleEnd : M unit :=
  _handleError (mkError "RSocketTcpClient: Socket closed unexpectedly.").

Definition _readFrames (chunk : Buffer) : M (list Frame) :=
  this <- get ;;
  let buffer := _buffer this ++ chunk in
  r <- lift (deserializeFrames buffer (_encoders this)) ;;
  let '(frames, remaining) := r in
  modify (set_buffer remaining) ;;
  ret frames.

Definition _handleData (chunk : Buffer) : M unit :=
  try_catch
    (frames <- _readFrames chunk ;;
     forEach frames (fun frame =>
       this <- get ;;
       forEach (JSSet.values (_receivers this))
         (fun subscriber => call (OnNext subscriber frame))))
    (fun error => _handleError error ;; close).

Definition _writeFrame (frame : Frame) : M unit :=
  try_catch
    (this <- get ;;
     buffer <- lift (serializeFrameWithLength frame (_encoders this)) ;;
     this_socket_write buffer)
    (fun error => _handleError error).

Definition sendOne (frame : Frame) : M unit := _writeFrame frame.

(** [send(frames)] subscribes an object with four callbacks to the producer.
    The callbacks share the closure variable [subscription], [None] until
    [onSubscribe] assigns it; each callback is a method that takes the
    variable's current value and [send_onSubscribe] returns its new value. *)
Definition send_onComplete (subscription : option Subscription) : M unit :=
  match subscription with
  | Some s => modify (fun this => set_senders (JSSet.delete s (_senders this)) this)
  | None => ret tt
  end.
Definition send_onError (error : Error) : M unit := _handleError error.
Definition send_onNext (frame : Frame) : M unit := _writeFrame frame.
Definition send_onSubscribe (_subscription : Subscription) : M (option Subscription) :=
  call (Request _subscription MAX_SAFE_INTEGER) ;;
  modify (fun this => set_senders (JSSet.add _subscription (_senders this)) this) ;;
  ret (Some _subscription).

(** [receive()] returns a [Flowable]; subscribing [subject] to it hands the
    subject a subscription object whose two methods follow. *)
Definition receive_subscribe (subject : Subscriber) : M unit :=
  call (SubjectOnSubscribe subject).
Definition receive_cancel (subject : Subscriber) : M unit :=
  modify (fun this => set_receivers (JSSet.delete subject (_receivers this)) this).
Definition receive_request (subject : Subscriber) : M unit :=
  modify (fun this => set_receivers (JSSet.add subject (_receivers this)) this).

(** ** Socket events reaching the connection *)

Definition call_listener (l : Listener) (ev : SocketEvent) : M unit :=
  match l, ev with
  | conn_close, _ => close
  | conn_handleData, EvData chunk => _handleData chunk
  | conn_handleEnd, _ => _handleEnd
  | conn_handleError, EvError error => _handleError error
  | _, _ => ret tt
  end.

(** the socket emits [ev]: the listeners registered for it run in order *)
Definition socket_emit (ev : SocketEvent) : M unit :=
  this <- get ;;
  forEach (listeners_of (event_name ev) (_socket this))
    (fun r =>
       modify (fun this => set_socket (drop_once r (_socket this)) this) ;;
       call_listener (reg_listener r) ev).

(** ** RSocketTcpClient, the connector *)

Record RSocketTcpClient : Type := {
  client_encoders : option Encoders;
  client_options : SocketOptions
}.

(** Where a connect attempt stands: the socket is still the connector's, or
    a [TcpDuplexConnection] was constructed around it. *)
Inductive Transport : Type :=
| Connecting (client : RSocketTcpClient) (socket : Socket)
| Connected (connection : TcpDuplexConnection).

(** [connect()], once the returned [Future] is subscribed to *)
Definition connect (client : RSocketTcpClient) : Transport * list Effect :=
  let socket := net_connect in
  (Connecting client
     (socket_once connect_event connect_onComplete
        (socket_once error_event connect_onError socket)),
   [NetConnect (client_options client); FutureOnSubscribe]).


Definition connector_listener
    (l : Listener) (ev : SocketEvent) (client : RSocketTcpClient) (socket : Socket)
  : Transport * list Effect :=
  match l, ev with
  | connect_onError, EvError error =>
      (Connecting client (socket_removeAllListeners socket),
       [SocketRemoveAllListeners; FutureOnError error])
  | connect_onComplete, _ =>
      let socket := socket_removeAllListeners socket in
      let connection :=
        new_TcpDuplexConnection (client_options client) (client_encoders client) socket in
      (Connected connection, [SocketRemoveAllListeners; FutureOnComplete connection])
  | _, _ => (Connecting client socket, [])
  end.

(** one registration of the emitted event is served *)
Definition transport_serve (ev : SocketEvent) (r : Registration) (t : Transport)
  : Transport * list Effect :=
  match t with
  | Connecting client socket =>
      connector_listener (reg_listener r) ev client (drop_once r socket)
  | Connected connection =>
      match (modify (fun this => set_socket (drop_once r (_socket this)) this) ;;
             call_listener (reg_listener r) ev) connection with
      | (_, connection', effects) => (Connected connection', effects)
      end
  end.

Definition transport_socket (t : Transport) : Socket :=
  match t with
  | Connecting _ socket => socket
  | Connected connection => _socket connection
  end.

Fixpoint transport_serve_all (ev : SocketEvent) (rs : list Registration) (t : Transport)
  : Transport * list Effect :=
  match rs with
  | [] => (t, [])
  | r :: rs' =>
      let '(t1, e1) := transport_serve ev r t in
      let '(t2, e2) := transport_serve_all ev rs' t1 in
      (t2, e1 ++ e2)
  end.

(** the socket emits [ev], before or after the connection exists *)
Definition transport_emit (ev : SocketEvent) (t : Transport) : Transport * list Effect :=
  transport_serve_all ev (listeners_of (event_name ev) (transport_socket t)) t.

(** a run of socket events *)
Fixpoint transport_run (evs : list SocketEvent) (t : Transport) : Transport * list Effect :=
  match evs with
  | [] => (t, [])
  | ev :: evs' =>
      let '(t1, e1) := transport_emit ev t in
      let '(t2, e2) := transport_run evs' t1 in
      (t2, e1 ++ e2)
  end.

(** ** Everything that can happen to a connection

    The upstream layer calls the public methods, a producer given to [send]
    calls the four callbacks, a subject of [receive()] calls its subscription,
    and the socket emits events. *)
Inductive Action : Type :=
| DoSendOne (frame : Frame)
| DoSendOnSubscribe (subscription : Subscription)
| DoSendOnNext (frame : Frame)
| DoSendOnComplete (subscription : option Subscription)
| DoSendOnError (error : Error)
| DoReceiveSubscribe (subject : Subscriber)
| DoReceiveRequest (subject : Subscriber)
| DoReceiveCancel (subject : Subscriber)
| DoClose
| DoSocketEmit (ev : SocketEvent).

Definition perform (a : Action) : M unit :=
  match a with
  | DoSendOne frame => sendOne frame
  | DoSendOnSubscribe s => send_onSubscribe s ;; ret tt
  | DoSendOnNext frame => send_onNext frame
  | DoSendOnComplete s => send_onComplete s
  | DoSendOnError error => send_onError error
  | DoReceiveSubscribe subject => receive_subscribe subject
  | DoReceiveRequest subject => receive_request subject
  | DoReceiveCancel subject => receive_cancel subject
  | DoClose => close
  | DoSocketEmit ev => socket_emit ev
  end.

(** the connection and the effects a method leaves behind *)
Definition state_after {A} (m : M A) (this : TcpDuplexConnection) : TcpDuplexConnection :=
  snd (fst (m this)).
Definition effects_of {A} (m : M A) (this : TcpDuplexConnection) : list Effect :=
  snd (m this).
Definition result_of {A} (m : M A) (this : TcpDuplexConnection) : Completion A :=
  fst (fst (m this)).

(** The connection [connect] constructs on the socket's [connect] event. *)
Definition initial (options : SocketOptions) (encoders : option Encoders)
  : TcpDuplexConnection :=
  new_TcpDuplexConnection options encoders (socket_removeAllListeners net_connect).

(** The states a connection can be in: any run of actions after construction. *)
Definition reachable (this : TcpDuplexConnection) : Prop :=
  exists options encoders actions,
    this = state_after (forEach actions perform) (initial options encoders).

(** ** Reading the effects *)

(** the frames [subscriber] was handed through [onNext], in order *)
Fixpoint received (subscriber : Subscriber) (effects : list Effect) : list Frame :=
  match effects with
  | [] => []
  | OnNext s frame :: rest =>
      if Nat.eqb s subscriber then frame :: received subscriber rest
      else received subscriber rest
  | _ :: rest => received subscriber rest
  end.

(** the buffers handed to [socket.write], in order *)
Fixpoint written (effects : list Effect) : list Buffer :=
  match effects with
  | [] => []
  | SocketWrite buffer :: rest => buffer :: written rest
  | _ :: rest => written rest
  end.

(** how often [subscriber.onComplete()] and [subscription.cancel()] ran *)
Fixpoint completions (subscriber : Subscriber) (effects : list Effect) : nat :=
  match effects with
  | [] => 0
  | OnComplete s :: rest =>
      (if Nat.eqb s subscriber then 1 else 0) + completions subscriber rest
  | _ :: rest => completions subscriber rest
  end.
Fixpoint cancellations (subscription : Subscription) (effects : list Effect) : nat :=
  match effects with
  | [] => 0
  | Cancel s :: rest =>
      (if Nat.eqb s subscription then 1 else 0) + cancellations subscription rest
  | _ :: rest => cancellations subscription rest
  end.

(** the calls that reach a receiver: [onNext] and [onError] *)
Definition is_delivery (e : Effect) : bool :=
  match e with
  | OnNext _ _ | OnError _ _ => true
  | _ => false
  end.

(** ** The vocabulary of the statements *)

(** the connection [close()] leaves behind when it finds [_active] set *)
Definition closed (this : TcpDuplexConnection) : TcpDuplexConnection :=
  {| _active := false;
     _buffer := _buffer this;
     _close := true;
     _encoders := _encoders this;
     _receivers := JSSet.empty;
     _senders := JSSet.empty;
     _socket := socket_end (socket_removeAllListeners (_socket this));
     _options := _options this |}.

(** the calls [close()] makes when it finds [_active] set, in order *)
Definition close_effects (this : TcpDuplexConnection) : list Effect :=
  [CloseResolve]
  ++ map OnComplete (JSSet.values (_receivers this))
  ++ map Cancel (JSSet.values (_senders this))
  ++ [SocketRemoveAllListeners; SocketEnd].

(** [error] is handed to every member of [receivers], in order *)
Definition broadcast_error (error : Error) (receivers : JSSet.t) : list Effect :=
  map (fun subscriber => OnError subscriber error) (JSSet.values receivers).

(** every frame of [frames], in order, is handed to every member of [receivers] *)
Definition broadcast (frames : list Frame) (receivers : JSSet.t) : list Effect :=
  flat_map (fun frame => map (fun subscriber => OnNext subscriber frame)
                             (JSSet.values receivers)) frames.

(** the listeners the constructor registers *)
Definition connection_listeners : list Registration :=
  [ {| reg_event := close_event; reg_listener := conn_close; reg_once := false |};
    {| reg_event := data_event; reg_listener := conn_handleData; reg_once := false |};
    {| reg_event := end_event; reg_listener := conn_handleEnd; reg_once := false |};
    {| reg_event := error_event; reg_listener := conn_handleError; reg_once := false |} ].

(** What holds of every state a connection can be in. *)
Record connection_invariant (this : TcpDuplexConnection) : Prop := {
  inv_receivers : NoDup (_receivers this);
  inv_senders : NoDup (_senders this);
  inv_open :
    _active this = true ->
    _close this = false /\
    _socket this = {| listeners := connection_listeners; ended := false |};
  inv_closed :
    _active this = false ->
    _close this = true /\
    _socket this = {| listeners := []; ended := true |}
}.

(** ** What the code relies on from the codec

    [serializeFrameWithLength] writes a frame so that [deserializeFrames] finds
    its boundary again: a buffer that starts with a serialized frame yields that
    frame followed by what the rest yields, and a buffer that stops inside a
    serialized frame yields no frame and is returned whole. *)
Definition strict_prefix (p b : Buffer) : Prop :=
  exists rest, rest <> [] /\ b = p ++ rest.

Record codec_contract (encoders : option Encoders) : Prop := {
  extract_empty :
    deserializeFrames [] encoders = Return ([], []);
  extract_frame :
    forall frame bytes rest frames remaining,
      serializeFrameWithLength frame encoders = Return bytes ->
      deserializeFrames rest encoders = Return (frames, remaining) ->
      deserializeFrames (bytes ++ rest) encoders = Return (frame :: frames, remaining);
  extract_partial :
    forall frame bytes p,
      serializeFrameWithLength frame encoders = Return bytes ->
      strict_prefix p bytes ->
      deserializeFrames p encoders = Return ([], p)
}.

(** [frames] serialize, one by one, to [buffers] *)
Definition serialized (encoders : option Encoders)
    (frames : list Frame) (buffers : list Buffer) : Prop :=
  Forall2 (fun frame bytes => serializeFrameWithLength frame encoders = Return bytes)
          frames buffers.

(** [p] holds no complete frame of the stream whose remaining frames are
    [frames]: it is empty, or it stops inside the bytes of the next frame *)
Definition incomplete (encoders : option Encoders)
    (p : Buffer) (frames : list Frame) : Prop :=
  p = [] \/
  exists frame bytes rest,
    frames = frame :: rest /\
    serializeFrameWithLength frame encoders = Return bytes /\
    strict_prefix p bytes.

(** the socket emits the chunks one after the other (to the data handler) *)
Definition feed (chunks : list Buffer) : M unit := forEach chunks _handleData.

(** ** Kinds of effects *)

(** the two calls that settle the [Future] of [connect()] *)
Definition is_settlement (e : Effect) : bool :=
  match e with
  | FutureOnError _ | FutureOnComplete _ => true
  | _ => false
  end.

(** the calls by which [close()] gives the connection up *)
Definition is_release (e : Effect) : bool :=
  match e with
  | CloseResolve | SocketRemoveAllListeners | SocketEnd => true
  | _ => false
  end.

(** the calls of a working stream: a frame, a completion, a cancellation *)
Definition is_stream_signal (e : Effect) : bool :=
  match e with
  | OnNext _ _ | OnComplete _ | Cancel _ => true
  | _ => false
  end.

Definition is_write (e : Effect) : bool :=
  match e with
  | SocketWrite _ => true
  | _ => false
  end.

(** a call on [subscriber] as a receiver *)
Definition concerns (subscriber : Subscriber) (e : Effect) : bool :=
  match e with
  | OnNext s _ => Nat.eqb s subscriber
  | OnError s _ => Nat.eqb s subscriber
  | OnComplete s => Nat.eqb s subscriber
  | _ => false
  end.

(** [a] is [request()] on the subscription of [subject] *)
Definition is_request_of (subject : Subscriber) (a : Action) : bool :=
  match a with
  | DoReceiveRequest s => Nat.eqb s subject
  | _ => false
  end.

(** [a] hands a frame to the send path *)
Definition is_send (a : Action) : bool :=
  match a with
  | DoSendOne _ | DoSendOnNext _ => true
  | _ => false
  end.

End Model.

Notation "x <- m ;; k" := (bind m (fun x => k))
  (at level 61, m at next level, right associativity).
Notation "m ;; k" := (bind m (fun _ => k))
  (at level 61, right associativity).

(** ** A length-prefixed codec

    Modelled from the spec: the frame codec ([rsocket-core]) is imported, not
    part of [RSocketTcpClient.js].  The spec says that serialization "always
    produces a length-prefixed encoding" and that extraction returns the
    complete frames and "never discards bytes belonging to an incomplete
    frame", and that a malformed length prefix is a decode error.  The codec
    below is the plainest one of that kind: a frame is its payload, written
    after a 24-bit big-endian length; a length of zero is malformed. *)
Inductive SampleFrame : Type :=
| mkFrame (payload : Buffer).

Definition payload (f : SampleFrame) : Buffer :=
  match f with mkFrame p => p end.

Definition byte_of_N (n : N) : byte :=
  match Byte.of_N (n mod 256) with
  | Some b => b
  | None => x00
  end.

Definition writeUInt24BE (n : N) : Buffer :=
  [byte_of_N (n / 65536); byte_of_N (n / 256); byte_of_N n].

Definition readUInt24BE (b1 b2 b3 : byte) : N :=
  (Byte.to_N b1 * 65536 + Byte.to_N b2 * 256 + Byte.to_N b3)%N.

Definition sample_serialize (f : SampleFrame) : Completion Buffer :=
  let n := N.of_nat (length (payload f)) in
  if (n =? 0)%N then Throw (mkError "empty frame")
  else if (16777216 <=? n)%N then Throw (mkError "frame too long")
  else Return (writeUInt24BE n ++ payload f).

Fixpoint sample_extract (fuel : nat) (buffer : Buffer)
  : Completion (list SampleFrame * Buffer) :=
  match fuel with
  | O => Return ([], buffer)
  | S fuel' =>
      match buffer with
      | b1 :: b2 :: b3 :: rest =>
          let frameLength := readUInt24BE b1 b2 b3 in
          if (N.of_nat (length rest) <? frameLength)%N then Return ([], buffer)
          else if (frameLength =? 0)%N then Throw (mkError "malformed frame")
          else
            match sample_extract fuel' (skipn (N.to_nat frameLength) rest) with
            | Return (frames, remaining) =>
                Return (mkFrame (firstn (N.to_nat frameLength) rest) :: frames, remaining)
            | Throw e => Throw e
            end
      | _ => Return ([], buffer)
      end
  end.

(** every frame takes at least one byte, so the length of the buffer is fuel enough *)
Definition sample_deserialize (buffer : Buffer) : Completion (list SampleFrame * Buffer) :=
  sample_extract (length buffer) buffer.

(** The sample collaborators: the codec above, and a socket whose [write]
    throws what [write_throws] says. *)
Definition sample_core (write_throws : Socket -> Buffer -> option Error)
  : RSocketCore SampleFrame unit :=
  {| deserializeFrames := fun buffer _ => sample_deserialize buffer;
     serializeFrameWithLength := fun frame _ => sample_serialize frame;
     socket_write_throws := write_throws |}.

(** a socket that accepts every write, and one whose pipe is broken *)
Definition healthy_socket : Socket -> Buffer -> option Error := fun _ _ => None.
Definition broken_socket : Socket -> Buffer -> option Error :=
  fun _ _ => Some (mkError "EPIPE").

(** ** A sample connection

    Two receivers (1 and 2) have requested and one producer (subscription 7)
    is subscribed; the stream is the two frames "frame1" and "hi", cut after
    two bytes of the second length prefix. *)
Record SampleOptions : Type := { host : string; port : N }.

Definition sample_options : SampleOptions := {| host := "localhost"; port := 7878 |}.

Definition sample_client : @RSocketTcpClient unit SampleOptions :=
  {| client_encoders := None; client_options := sample_options |}.

Definition frame1 : SampleFrame := mkFrame [x66; x72; x61; x6d; x65; x31].
Definition frame2 : SampleFrame := mkFrame [x68; x69].
Definition bytes1 : Buffer := [x00; x00; x06; x66; x72; x61; x6d; x65; x31].
Definition bytes2 : Buffer := [x00; x00; x02; x68; x69].
Definition chunk1 : Buffer := bytes1 ++ [x00; x00].
Definition chunk2 : Buffer := [x02; x68; x69].

(** a length prefix of zero, which the sample codec rejects *)
Definition malformed : Buffer := [x00; x00; x00; x01].

Definition sample_actions : list (@Action SampleFrame) :=
  [DoReceiveRequest 1; DoReceiveRequest 2; DoSendOnSubscribe 7].

Definition sample_on (write_throws : Socket -> Buffer -> option Error)
  : @TcpDuplexConnection unit SampleOptions :=
  state_after (forEach sample_actions (perform (Core := sample_core write_throws)))
              (initial sample_options None).

Definition sample_open : @TcpDuplexConnection unit SampleOptions :=
  sample_on healthy_socket.

(** the same connection after [close()], and after a late [request()] by 3 *)
Definition sample_closed : @TcpDuplexConnection unit SampleOptions :=
  state_after (close (Frame := SampleFrame)) sample_open.

Definition sample_late : @TcpDuplexConnection unit SampleOptions :=
  state_after (receive_request (Frame := SampleFrame) 3) sample_closed.

(** splits a goal into its conjuncts *)
Ltac conjuncts := repeat match goal with |- _ /\ _ => split end.
(** * Properties *)

Section Properties.

Context {Frame Encoders SocketOptions : Type}.
Context `{Core : RSocketCore Frame Encoders}.

Local Abbreviation Conn := (@TcpDuplexConnection Encoders SocketOptions).
Local Abbreviation Eff := (@Effect Frame Encoders SocketOptions).

(** ** The identity-keyed set *)

Lemma JSSet_has_In : forall x s, JSSet.has x s = true <-> In x s.
Proof.
  intros x s. unfold JSSet.has. rewrite existsb_exists. split.
  - intros [y [Hy Heq]]. apply Nat.eqb_eq in Heq. now subst.
  - intros H. exists x. split; [assumption | apply Nat.eqb_refl].
Qed.

Lemma JSSet_add_In : forall x s, In x (JSSet.add x s).
Proof.
  intros x s. unfold JSSet.add. destruct (JSSet.has x s) eqn:E.
  - now apply JSSet_has_In.
  - apply in_or_app. right. now left.
Qed.

Lemma JSSet_add_NoDup : forall x s, NoDup s -> NoDup (JSSet.add x s).
Proof.
  intros x s H. unfold JSSet.add. destruct (JSSet.has x s) eqn:E; [assumption|].
  assert (Hn : ~ In x s).
  { intro Hin. apply JSSet_has_In in Hin. congruence. }
  clear E. induction H as [|y l Hy Hl IH]; simpl.
  - constructor; [intros [] | constructor].
  - constructor.
    + rewrite in_app_iff. intros [Hin | [Heq | []]]; [now apply Hy|].
      subst. apply Hn. now left.
    + apply IH. intro Hin. apply Hn. now right.
Qed.

Lemma JSSet_add_member : forall x s, In x s -> JSSet.add x s = s.
Proof.
  intros x s H. unfold JSSet.add. apply JSSet_has_In in H. now rewrite H.
Qed.

Lemma JSSet_add_idem : forall x s, JSSet.add x (JSSet.add x s) = JSSet.add x s.
Proof. intros x s. apply JSSet_add_member, JSSet_add_In. Qed.

Lemma JSSet_delete_In : forall x y s, In y (JSSet.delete x s) <-> In y s /\ y <> x.
Proof.
  intros x y s. unfold JSSet.delete. rewrite filter_In.
  rewrite negb_true_iff, Nat.eqb_neq. intuition congruence.
Qed.

Lemma JSSet_delete_NoDup : forall x s, NoDup s -> NoDup (JSSet.delete x s).
Proof. intros x s H. unfold JSSet.delete. now apply NoDup_filter. Qed.

(** ** Running methods *)

Lemma forEach_call :
  forall (A : Type) (l : list A) (g : A -> Eff) (this : Conn),
    forEach l (fun x => call (g x)) this = (Return tt, this, map g l).
Proof.
  intros A l g this. induction l as [|x l IH]; simpl; [reflexivity|].
  unfold bind, call at 1. rewrite IH. reflexivity.
Qed.

Lemma close_inactive :
  forall this : Conn,
    _active this = false -> close (Frame := Frame) this = (Return tt, this, []).
Proof.
  intros this H. unfold close, bind, get. simpl. rewrite H. reflexivity.
Qed.

Lemma close_active :
  forall this : Conn,
    _active this = true ->
    close (Frame := Frame) this = (Return tt, closed this, close_effects this).
Proof.
  intros this H. unfold close, bind at 1, get. rewrite H. simpl negb. cbv iota.
  unfold close_resolve, this_socket_removeAllListeners, this_socket_end.
  unfold bind, modify, get. simpl.
  rewrite !forEach_call. simpl.
  unfold closed, close_effects. simpl. reflexivity.
Qed.

Lemma close_run :
  forall this : Conn,
    close (Frame := Frame) this =
    (Return tt,
     (if _active this then closed this else this),
     (if _active this then close_effects this else [])).
Proof.
  intros this. destruct (_active this) eqn:E.
  - now apply close_active.
  - now apply close_inactive.
Qed.

Lemma _handleError_run :
  forall (error : Error) (this : Conn),
    _handleError (Frame := Frame) error this =
    (Return tt,
     (if _active this then closed this else this),
     broadcast_error error (_receivers this)
     ++ (if _active this then close_effects this else [])).
Proof.
  intros error this. unfold _handleError, bind at 1, get.
  unfold bind. rewrite forEach_call. rewrite close_run. reflexivity.
Qed.

Lemma broadcast_run :
  forall (frames : list Frame) (this : Conn),
    forEach frames (fun frame =>
      this <- get ;;
      forEach (JSSet.values (_receivers this))
        (fun subscriber => call (OnNext subscriber frame))) this
    = (Return tt, this, broadcast frames (_receivers this)).
Proof.
  intros frames this. induction frames as [|frame frames IH]; cbn [forEach]; [reflexivity|].
  unfold bind at 1. unfold bind at 1, get at 1. rewrite forEach_call.
  rewrite IH. reflexivity.
Qed.

(** the monad's equations, read at a state *)
Lemma bind_get :
  forall (B : Type) (k : Conn -> M B) (this : Conn),
    bind (Frame := Frame) get k this = k this this.
Proof.
  intros B k this. unfold bind, get. destruct (k this this) as [[r c] t]. reflexivity.
Qed.

Lemma bind_modify :
  forall (B : Type) (f : Conn -> Conn) (k : unit -> M B) (this : Conn),
    bind (Frame := Frame) (modify f) k this = k tt (f this).
Proof.
  intros B f k this. unfold bind, modify. destruct (k tt (f this)) as [[r c] t]. reflexivity.
Qed.

Lemma bind_call :
  forall (B : Type) (e : Eff) (k : unit -> M B) (this : Conn),
    bind (call e) k this =
    (result_of (k tt) this, state_after (k tt) this, e :: effects_of (k tt) this).
Proof.
  intros B e k this. unfold bind, call, result_of, state_after, effects_of.
  destruct (k tt this) as [[r c] t]. reflexivity.
Qed.

Lemma bind_ret :
  forall (A B : Type) (a : A) (k : A -> M B) (this : Conn),
    bind (Frame := Frame) (ret a) k this = k a this.
Proof.
  intros A B a k this. unfold bind, ret. destruct (k a this) as [[r c] t]. reflexivity.
Qed.

Lemma bind_throw :
  forall (A B : Type) (e : Error) (k : A -> M B) (this : Conn),
    bind (Frame := Frame) (throw e) k this = (Throw e, this, []).
Proof. reflexivity. Qed.

Lemma bind_bind :
  forall (A B C : Type) (m : M A) (k : A -> M B) (h : B -> M C) (this : Conn),
    bind (Frame := Frame) (bind m k) h this = bind m (fun a => bind (k a) h) this.
Proof.
  intros A B C m k h this. unfold bind.
  destruct (m this) as [[[a|e] c1] t1]; [|reflexivity].
  destruct (k a c1) as [[[b|e] c2] t2]; [|reflexivity].
  destruct (h b c2) as [[r c3] t3]. now rewrite app_assoc.
Qed.

Lemma run_eta :
  forall (A : Type) (m : M A) (this : Conn),
    m this = (result_of m this, state_after m this, effects_of (Frame := Frame) m this).
Proof.
  intros A m this. unfold result_of, state_after, effects_of.
  destruct (m this) as [[r c] t]. reflexivity.
Qed.

Lemma _handleData_returns :
  forall (chunk : Buffer) (this : Conn) frames remaining,
    deserializeFrames (_buffer this ++ chunk) (_encoders this)
      = Return (frames, remaining) ->
    _handleData chunk this
    = (Return tt, set_buffer remaining this, broadcast frames (_receivers this)).
Proof.
  intros chunk this frames remaining H.
  unfold _handleData, try_catch, _readFrames.
  rewrite bind_bind, bind_get. cbv zeta. rewrite H. cbn [lift].
  rewrite bind_bind, bind_ret, bind_bind, bind_modify, bind_ret.
  rewrite broadcast_run. reflexivity.
Qed.

Lemma _handleData_throws :
  forall (chunk : Buffer) (this : Conn) error,
    deserializeFrames (_buffer this ++ chunk) (_encoders this) = Throw error ->
    _handleData chunk this = _handleError (Frame := Frame) error this.
Proof.
  intros chunk this error H.
  unfold _handleData, try_catch, _readFrames.
  rewrite bind_bind, bind_get. cbv zeta. rewrite H. cbn [lift].
  rewrite bind_bind, bind_throw.
  unfold bind at 1. rewrite _handleError_run. cbv iota beta.
  rewrite close_run.
  destruct (_active this) eqn:E; simpl; rewrite ?E; simpl; rewrite ?app_nil_r; reflexivity.
Qed.

Lemma _writeFrame_writes :
  forall (frame : Frame) (this : Conn) bytes,
    serializeFrameWithLength frame (_encoders this) = Return bytes ->
    socket_write_throws (_socket this) bytes = None ->
    _writeFrame frame this = (Return tt, this, [SocketWrite bytes]).
Proof.
  intros frame this bytes Hs Hw.
  unfold _writeFrame, try_catch, this_socket_write.
  rewrite bind_get, Hs. cbn [lift]. rewrite bind_ret, bind_get, Hw.
  reflexivity.
Qed.

Lemma _writeFrame_cannot_serialize :
  forall (frame : Frame) (this : Conn) error,
    serializeFrameWithLength frame (_encoders this) = Throw error ->
    _writeFrame frame this = _handleError (Frame := Frame) error this.
Proof.
  intros frame this error Hs.
  unfold _writeFrame, try_catch, this_socket_write.
  rewrite bind_get, Hs. cbn [lift]. rewrite bind_throw.
  destruct (_handleError error this) as [[r c] t]. reflexivity.
Qed.

Lemma _writeFrame_cannot_write :
  forall (frame : Frame) (this : Conn) bytes error,
    serializeFrameWithLength frame (_encoders this) = Return bytes ->
    socket_write_throws (_socket this) bytes = Some error ->
    _writeFrame frame this =
    (Return tt,
     state_after (_handleError (Frame := Frame) error) this,
     SocketWrite bytes :: effects_of (_handleError (Frame := Frame) error) this).
Proof.
  intros frame this bytes error Hs Hw.
  unfold _writeFrame, try_catch, this_socket_write.
  rewrite bind_get, Hs. cbn [lift]. rewrite bind_ret, bind_get, Hw.
  unfold bind, call, throw, state_after, effects_of.
  rewrite _handleError_run. reflexivity.
Qed.

Lemma _handleError_state :
  forall (error : Error) (this : Conn),
    state_after (_handleError (Frame := Frame) error) this
    = if _active this then closed this else this.
Proof. intros. unfold state_after. now rewrite _handleError_run. Qed.

Lemma _handleError_effects :
  forall (error : Error) (this : Conn),
    effects_of (_handleError (Frame := Frame) error) this
    = broadcast_error error (_receivers this)
      ++ (if _active this then close_effects this else []).
Proof. intros. unfold effects_of. now rewrite _handleError_run. Qed.

(** ** Socket events *)

Lemma set_socket_same : forall this : Conn, set_socket (_socket this) this = this.
Proof. now intros []. Qed.

Lemma bind_unit_ret :
  forall (m : M unit) (this : Conn),
    bind (Frame := Frame) m (fun _ => ret tt) this = m this.
Proof.
  intros m this. unfold bind, ret.
  destruct (m this) as [[[[]|e] c] t]; [|reflexivity].
  now rewrite app_nil_r.
Qed.

(** while the constructor's listeners are attached, an event runs its handler *)
Lemma socket_emit_attached :
  forall (ev : SocketEvent) (this : Conn),
    listeners (_socket this) = connection_listeners ->
    socket_emit ev this =
    match ev with
    | EvConnect => (Return tt, this, [])
    | EvData chunk => _handleData chunk this
    | EvEnd => _handleEnd this
    | EvError error => _handleError error this
    | EvClose => close this
    end.
Proof.
  intros ev this H. unfold socket_emit. rewrite bind_get.
  unfold listeners_of. rewrite H.
  destruct ev; cbn [event_name connection_listeners filter reg_event EventName_eqb forEach];
    try reflexivity;
    rewrite bind_unit_ret, bind_modify; unfold drop_once; cbn [reg_once reg_listener];
    rewrite set_socket_same; reflexivity.
Qed.

(** after [removeAllListeners], an event reaches nothing *)
Lemma socket_emit_detached :
  forall (ev : SocketEvent) (this : Conn),
    listeners (_socket this) = [] ->
    socket_emit (Frame := Frame) ev this = (Return tt, this, []).
Proof.
  intros ev this H. unfold socket_emit. rewrite bind_get.
  unfold listeners_of. rewrite H. reflexivity.
Qed.

(** ** The invariant *)

Lemma initial_invariant :
  forall options (encoders : option Encoders),
    connection_invariant (initial (SocketOptions := SocketOptions) options encoders).
Proof.
  intros options encoders. split; simpl; try constructor; try discriminate.
  - reflexivity.
  - reflexivity.
Qed.

Lemma closed_invariant :
  forall this : Conn, connection_invariant (closed this).
Proof.
  intros this. split; simpl; try constructor; try discriminate; reflexivity.
Qed.

Lemma close_state_invariant :
  forall this : Conn,
    connection_invariant this ->
    connection_invariant (if _active this then closed this else this).
Proof.
  intros this H. destruct (_active this); [apply closed_invariant | assumption].
Qed.

Lemma set_buffer_invariant :
  forall (b : Buffer) (this : Conn),
    connection_invariant this -> connection_invariant (set_buffer b this).
Proof. intros b this [H1 H2 H3 H4]. split; assumption. Qed.

Lemma set_receivers_invariant :
  forall (s : JSSet.t) (this : Conn),
    NoDup s -> connection_invariant this -> connection_invariant (set_receivers s this).
Proof. intros s this Hs [H1 H2 H3 H4]. split; assumption. Qed.

Lemma set_senders_invariant :
  forall (s : JSSet.t) (this : Conn),
    NoDup s -> connection_invariant this -> connection_invariant (set_senders s this).
Proof. intros s this Hs [H1 H2 H3 H4]. split; assumption. Qed.

Lemma _handleData_run :
  forall (chunk : Buffer) (this : Conn),
    _handleData chunk this =
    match deserializeFrames (_buffer this ++ chunk) (_encoders this) with
    | Return (frames, remaining) =>
        (Return tt, set_buffer remaining this, broadcast frames (_receivers this))
    | Throw error => _handleError error this
    end.
Proof.
  intros chunk this.
  destruct (deserializeFrames (_buffer this ++ chunk) (_encoders this))
    as [[frames remaining]|error] eqn:E.
  - now apply _handleData_returns.
  - now apply _handleData_throws.
Qed.

Lemma _writeFrame_run :
  forall (frame : Frame) (this : Conn),
    _writeFrame frame this =
    match serializeFrameWithLength frame (_encoders this) with
    | Return bytes =>
        match socket_write_throws (_socket this) bytes with
        | None => (Return tt, this, [SocketWrite bytes])
        | Some error =>
            (Return tt,
             state_after (_handleError (Frame := Frame) error) this,
             SocketWrite bytes :: effects_of (_handleError (Frame := Frame) error) this)
        end
    | Throw error => _handleError error this
    end.
Proof.
  intros frame this.
  destruct (serializeFrameWithLength frame (_encoders this)) as [bytes|error] eqn:E.
  - destruct (socket_write_throws (_socket this) bytes) as [error|] eqn:W.
    + now apply _writeFrame_cannot_write.
    + now apply _writeFrame_writes.
  - now apply _writeFrame_cannot_serialize.
Qed.

Lemma _writeFrame_invariant :
  forall (frame : Frame) (this : Conn),
    connection_invariant this ->
    connection_invariant (state_after (_writeFrame frame) this).
Proof.
  intros frame this H. unfold state_after at 1. rewrite _writeFrame_run.
  destruct (serializeFrameWithLength frame (_encoders this)) as [bytes|error].
  - destruct (socket_write_throws (_socket this) bytes); cbn [fst snd].
    + rewrite _handleError_state. now apply close_state_invariant.
    + assumption.
  - rewrite _handleError_run. cbn [fst snd]. now apply close_state_invariant.
Qed.

Lemma _handleData_invariant :
  forall (chunk : Buffer) (this : Conn),
    connection_invariant this ->
    connection_invariant (state_after (_handleData chunk) this).
Proof.
  intros chunk this H. unfold state_after. rewrite _handleData_run.
  destruct (deserializeFrames (_buffer this ++ chunk) (_encoders this))
    as [[frames remaining]|error].
  - cbn [fst snd]. now apply set_buffer_invariant.
  - rewrite _handleError_run. cbn [fst snd]. now apply close_state_invariant.
Qed.

Lemma perform_invariant :
  forall (a : Action) (this : Conn),
    connection_invariant this ->
    connection_invariant (state_after (perform a) this).
Proof.
  intros a this H. destruct a; cbn [perform].
  - now apply _writeFrame_invariant.
  - unfold state_after, send_onSubscribe, bind, call, modify, ret. cbn [fst snd].
    apply set_senders_invariant; [|assumption].
    apply JSSet_add_NoDup, H.
  - now apply _writeFrame_invariant.
  - destruct subscription as [s|]; unfold state_after, send_onComplete, modify, ret;
      cbn [fst snd]; [|assumption].
    apply set_senders_invariant; [|assumption].
    apply JSSet_delete_NoDup, H.
  - unfold send_onError. rewrite _handleError_state. now apply close_state_invariant.
  - assumption.
  - unfold state_after, receive_request, modify. cbn [fst snd].
    apply set_receivers_invariant; [|assumption].
    apply JSSet_add_NoDup, H.
  - unfold state_after, receive_cancel, modify. cbn [fst snd].
    apply set_receivers_invariant; [|assumption].
    apply JSSet_delete_NoDup, H.
  - unfold state_after. rewrite close_run. cbn [fst snd]. now apply close_state_invariant.
  - destruct (_active this) eqn:E.
    + destruct (inv_open H E) as [_ Hs].
      unfold state_after. rewrite socket_emit_attached by now rewrite Hs.
      destruct ev.
      * assumption.
      * now apply _handleData_invariant.
      * unfold _handleEnd. rewrite _handleError_run. cbn [fst snd].
        now apply close_state_invariant.
      * rewrite _handleError_run. cbn [fst snd]. now apply close_state_invariant.
      * rewrite close_run. cbn [fst snd]. now apply close_state_invariant.
    + destruct (inv_closed H E) as [_ Hs].
      unfold state_after. rewrite socket_emit_detached by now rewrite Hs.
      assumption.
Qed.

(** ** No exception escapes a method *)

Lemma _handleError_result :
  forall (error : Error) (this : Conn),
    result_of (_handleError (Frame := Frame) error) this = Return tt.
Proof. intros. unfold result_of. now rewrite _handleError_run. Qed.

Lemma _writeFrame_result :
  forall (frame : Frame) (this : Conn), result_of (_writeFrame frame) this = Return tt.
Proof.
  intros frame this. unfold result_of at 1. rewrite _writeFrame_run.
  destruct (serializeFrameWithLength frame (_encoders this)) as [bytes|error].
  - now destruct (socket_write_throws (_socket this) bytes).
  - now rewrite _handleError_run.
Qed.

Lemma _handleData_result :
  forall (chunk : Buffer) (this : Conn), result_of (_handleData chunk) this = Return tt.
Proof.
  intros chunk this. unfold result_of. rewrite _handleData_run.
  destruct (deserializeFrames (_buffer this ++ chunk) (_encoders this))
    as [[frames remaining]|error]; [reflexivity|].
  now rewrite _handleError_run.
Qed.

Lemma call_listener_result :
  forall (l : Listener) (ev : SocketEvent) (this : Conn),
    result_of (call_listener l ev) this = Return tt.
Proof.
  intros l ev this. destruct l, ev; cbn [call_listener]; try reflexivity;
    try apply _handleData_result; try apply _handleError_result;
    unfold result_of; now rewrite close_run.
Qed.

Lemma forEach_result :
  forall (A : Type) (f : A -> M unit) (l : list A),
    (forall x (this : Conn), result_of (Frame := Frame) (f x) this = Return tt) ->
    forall this : Conn, result_of (forEach l f) this = Return tt.
Proof.
  intros A f l Hf. induction l as [|x l IH]; intros this; [reflexivity|].
  cbn [forEach]. unfold result_of, bind.
  specialize (Hf x this). unfold result_of in Hf.
  destruct (f x this) as [[r c] t]. cbn [fst] in Hf. subst r.
  specialize (IH c). unfold result_of in IH.
  destruct (forEach l f c) as [[r' c'] t']. cbn [fst] in *. assumption.
Qed.

Lemma socket_emit_result :
  forall (ev : SocketEvent) (this : Conn), result_of (socket_emit ev) this = Return tt.
Proof.
  intros ev this. unfold socket_emit, result_of. rewrite bind_get.
  apply forEach_result. intros r c. unfold result_of. rewrite bind_modify.
  apply call_listener_result.
Qed.

Lemma perform_result :
  forall (a : Action) (this : Conn), result_of (perform a) this = Return tt.
Proof.
  intros a this. destruct a; cbn [perform]; try reflexivity.
  - apply _writeFrame_result.
  - apply _writeFrame_result.
  - now destruct subscription.
  - apply _handleError_result.
  - unfold result_of. now rewrite close_run.
  - apply socket_emit_result.
Qed.

(** ** Runs of actions *)

Lemma bind_returning :
  forall (A B : Type) (m : M A) (k : A -> M B) (a : A) (this : Conn),
    result_of m this = Return a ->
    bind (Frame := Frame) m k this =
    (result_of (k a) (state_after m this),
     state_after (k a) (state_after m this),
     effects_of m this ++ effects_of (k a) (state_after m this)).
Proof.
  intros A B m k a this H. unfold bind, result_of, state_after, effects_of in *.
  destruct (m this) as [[r c] t]. cbn [fst snd] in *. subst r.
  destruct (k a c) as [[r' c'] t']. reflexivity.
Qed.

Lemma bind_ext :
  forall (A B : Type) (m : M A) (k k' : A -> M B) (this : Conn),
    (forall a c, k a c = k' a c) ->
    bind (Frame := Frame) m k this = bind m k' this.
Proof.
  intros A B m k k' this H. unfold bind.
  destruct (m this) as [[[a|e] c] t]; [|reflexivity]. now rewrite H.
Qed.

Lemma forEach_app :
  forall (A : Type) (f : A -> M unit) (l1 l2 : list A) (this : Conn),
    forEach (Frame := Frame) (l1 ++ l2) f this
    = bind (forEach l1 f) (fun _ => forEach l2 f) this.
Proof.
  intros A f l1 l2. induction l1 as [|x l1 IH]; intros this.
  - cbn [app forEach]. now rewrite bind_ret.
  - cbn [app forEach]. rewrite bind_bind. apply bind_ext. intros _ c. apply IH.
Qed.

Lemma forEach_perform_result :
  forall (actions : list Action) (this : Conn),
    result_of (forEach actions perform) this = Return tt.
Proof. intros. apply forEach_result, perform_result. Qed.

Lemma forEach_perform_one :
  forall (a : Action) (this : Conn),
    forEach [a] perform this = perform a this.
Proof. intros a this. cbn [forEach]. apply bind_unit_ret. Qed.

Lemma reachable_initial :
  forall options (encoders : option Encoders),
    reachable (Frame := Frame) (initial (SocketOptions := SocketOptions) options encoders).
Proof. intros options encoders. now exists options, encoders, []. Qed.

Lemma reachable_perform :
  forall (a : Action) (this : Conn),
    reachable (Frame := Frame) this -> reachable (Frame := Frame) (state_after (perform a) this).
Proof.
  intros a this (options & encoders & actions & ->).
  exists options, encoders, (actions ++ [a]).
  unfold state_after at 3. rewrite forEach_app.
  rewrite (@bind_returning _ _ _ _ tt _ (forEach_perform_result actions _)).
  cbn [fst snd]. unfold state_after at 1 3. now rewrite forEach_perform_one.
Qed.

Lemma forEach_perform_invariant :
  forall (actions : list Action) (this : Conn),
    connection_invariant this ->
    connection_invariant (state_after (forEach actions perform) this).
Proof.
  induction actions as [|a actions IH]; intros this H; [assumption|].
  cbn [forEach]. unfold state_after.
  rewrite (@bind_returning _ _ _ _ tt _ (perform_result a this)). cbn [fst snd].
  apply IH. now apply perform_invariant.
Qed.

Theorem reachable_invariant :
  forall this : Conn, reachable (Frame := Frame) this -> connection_invariant this.
Proof.
  intros this (options & encoders & actions & ->).
  apply forEach_perform_invariant, initial_invariant.
Qed.

(** ** Reading the effects *)

Lemma completions_app :
  forall (r : Subscriber) (t1 t2 : list Eff),
    completions r (t1 ++ t2) = completions r t1 + completions r t2.
Proof.
  intros r t1 t2. induction t1 as [|e t1 IH]; [reflexivity|].
  destruct e; cbn [app completions]; try assumption. rewrite IH. lia.
Qed.

Lemma cancellations_app :
  forall (s : Subscription) (t1 t2 : list Eff),
    cancellations s (t1 ++ t2) = cancellations s t1 + cancellations s t2.
Proof.
  intros s t1 t2. induction t1 as [|e t1 IH]; [reflexivity|].
  destruct e; cbn [app cancellations]; try assumption. rewrite IH. lia.
Qed.

Lemma completions_OnComplete :
  forall (r : Subscriber) (l : list Subscriber),
    completions (Frame := Frame) (Encoders := Encoders) (SocketOptions := SocketOptions)
      r (map OnComplete l) = count_occ Nat.eq_dec l r.
Proof.
  intros r l. induction l as [|x l IH]; [reflexivity|].
  cbn [map completions count_occ]. rewrite IH.
  destruct (Nat.eq_dec x r) as [->|Hne].
  - now rewrite Nat.eqb_refl.
  - apply Nat.eqb_neq in Hne. now rewrite Hne.
Qed.

Lemma cancellations_Cancel :
  forall (s : Subscription) (l : list Subscription),
    cancellations (Frame := Frame) (Encoders := Encoders) (SocketOptions := SocketOptions)
      s (map Cancel l) = count_occ Nat.eq_dec l s.
Proof.
  intros s l. induction l as [|x l IH]; [reflexivity|].
  cbn [map cancellations count_occ]. rewrite IH.
  destruct (Nat.eq_dec x s) as [->|Hne].
  - now rewrite Nat.eqb_refl.
  - apply Nat.eqb_neq in Hne. now rewrite Hne.
Qed.

Lemma completions_Cancel :
  forall (r : Subscriber) (l : list Subscription),
    completions (Frame := Frame) (Encoders := Encoders) (SocketOptions := SocketOptions)
      r (map Cancel l) = 0.
Proof. intros r l. induction l; [reflexivity | assumption]. Qed.

Lemma cancellations_OnComplete :
  forall (s : Subscription) (l : list Subscriber),
    cancellations (Frame := Frame) (Encoders := Encoders) (SocketOptions := SocketOptions)
      s (map OnComplete l) = 0.
Proof. intros s l. induction l; [reflexivity | assumption]. Qed.

Lemma completions_close_effects :
  forall (r : Subscriber) (this : Conn),
    completions (Frame := Frame) r (close_effects this)
    = count_occ Nat.eq_dec (_receivers this) r.
Proof.
  intros r this. unfold close_effects, JSSet.values.
  rewrite !completions_app, completions_OnComplete, completions_Cancel.
  cbn [completions]. lia.
Qed.

Lemma cancellations_close_effects :
  forall (s : Subscription) (this : Conn),
    cancellations (Frame := Frame) s (close_effects this)
    = count_occ Nat.eq_dec (_senders this) s.
Proof.
  intros s this. unfold close_effects, JSSet.values.
  rewrite !cancellations_app, cancellations_OnComplete, cancellations_Cancel.
  cbn [cancellations]. lia.
Qed.

(** ** [_active] never comes back *)

Lemma forEach_preserves :
  forall (A : Type) (f : A -> M unit) (P : Conn -> Prop),
    (forall x (this : Conn), result_of (Frame := Frame) (f x) this = Return tt) ->
    (forall x this, P this -> P (state_after (f x) this)) ->
    forall (l : list A) (this : Conn), P this -> P (state_after (forEach l f) this).
Proof.
  intros A f P Hr Hp l. induction l as [|x l IH]; intros this H; [assumption|].
  cbn [forEach]. unfold state_after.
  rewrite (@bind_returning _ _ _ _ tt _ (Hr x this)). cbn [fst snd].
  apply IH, Hp, H.
Qed.

Lemma close_stays_inactive :
  forall this : Conn,
    _active (state_after (close (Frame := Frame)) this) = false.
Proof.
  intros this. unfold state_after. rewrite close_run. cbn [fst snd].
  now destruct (_active this) eqn:E.
Qed.

Lemma _handleError_stays_inactive :
  forall (error : Error) (this : Conn),
    _active (state_after (_handleError (Frame := Frame) error) this) = false.
Proof.
  intros error this. rewrite _handleError_state. now destruct (_active this) eqn:E.
Qed.

Lemma call_listener_stays_inactive :
  forall (l : Listener) (ev : SocketEvent) (this : Conn),
    _active this = false -> _active (state_after (call_listener l ev) this) = false.
Proof.
  intros l ev this H.
  destruct l, ev; cbn [call_listener]; try assumption;
    try apply close_stays_inactive; try apply _handleError_stays_inactive.
  unfold state_after. rewrite _handleData_run.
  destruct (deserializeFrames (_buffer this ++ chunk) (_encoders this))
    as [[frames remaining]|error]; [assumption|].
  apply _handleError_stays_inactive.
Qed.

Lemma perform_stays_inactive :
  forall (a : Action) (this : Conn),
    _active this = false -> _active (state_after (perform a) this) = false.
Proof.
  assert (Hw : forall frame (this : Conn),
             _active this = false -> _active (state_after (_writeFrame frame) this) = false).
  { intros frame this H. unfold state_after at 1. rewrite _writeFrame_run.
    destruct (serializeFrameWithLength frame (_encoders this)) as [bytes|error].
    - destruct (socket_write_throws (_socket this) bytes); cbn [fst snd];
        [apply _handleError_stays_inactive | assumption].
    - apply _handleError_stays_inactive. }
  intros a this H. destruct a; cbn [perform]; try assumption.
  - now apply Hw.
  - now apply Hw.
  - now destruct subscription.
  - apply _handleError_stays_inactive.
  - apply close_stays_inactive.
  - unfold socket_emit, state_after. rewrite bind_get.
    apply (@forEach_preserves _ _ (fun c : Conn => _active c = false)); [| |assumption].
    + intros r c. unfold result_of. rewrite bind_modify. apply call_listener_result.
    + intros r c Hc. unfold state_after. rewrite bind_modify.
      now apply call_listener_stays_inactive.
Qed.

Lemma run_stays_inactive :
  forall (actions : list Action) (this : Conn),
    _active this = false ->
    _active (state_after (forEach actions perform) this) = false.
Proof.
  intros actions this H.
  apply (@forEach_preserves _ _ (fun c : Conn => _active c = false));
    [apply perform_result | apply perform_stays_inactive | assumption].
Qed.

(** ** close() *)

(** C2: close() is idempotent.  The first invocation (on a connection that is
    still active) makes, in this order, the calls of [close_effects]: it
    resolves the close notification, completes every registered receiver,
    cancels every registered sender, detaches the socket's listeners and ends
    the socket; it leaves [_active] false and both sets empty.  Every later
    invocation, whatever happened in between, changes nothing and calls
    nothing, so that however often close() runs each receiver is completed
    exactly once and each sender cancelled exactly once. *)
Theorem close_is_idempotent :
  forall this : Conn,
    reachable (Frame := Frame) this ->
    _active this = true ->
    (* the first invocation *)
    close (Frame := Frame) this = (Return tt, closed this, close_effects this) /\
    close_effects (Frame := Frame) this =
      [CloseResolve]
      ++ map OnComplete (_receivers this)
      ++ map Cancel (_senders this)
      ++ [SocketRemoveAllListeners; SocketEnd] /\
    _active (closed this) = false /\
    onClose (closed this) = true /\
    _receivers (closed this) = [] /\
    _senders (closed this) = [] /\
    listeners (_socket (closed this)) = [] /\
    ended (_socket (closed this)) = true /\
    (* every subsequent invocation *)
    (forall actions,
        let later := state_after (forEach actions perform) (closed this) in
        close (Frame := Frame) later = (Return tt, later, [])) /\
    (* however often close() runs *)
    (forall n,
        forEach (repeat DoClose (S n)) perform this
        = (Return tt, closed this, close_effects this)) /\
    (forall n subscriber,
        In subscriber (_receivers this) ->
        completions subscriber (effects_of (forEach (repeat DoClose (S n)) perform) this) = 1) /\
    (forall n subscription,
        In subscription (_senders this) ->
        cancellations subscription (effects_of (forEach (repeat DoClose (S n)) perform) this) = 1).
Proof.
  intros this Hr Ha.
  assert (Hn : forall n,
             forEach (repeat DoClose (S n)) perform this
             = (Return tt, closed this, close_effects (Frame := Frame) this)).
  { intros n. cbn [repeat forEach perform].
    unfold bind. rewrite (close_active this Ha).
    assert (Hrest : forall c : Conn, _active c = false ->
              forEach (repeat DoClose n) perform c = (Return tt, c, @nil Eff)).
    { induction n as [|n IH]; intros c Hc; [reflexivity|].
      cbn [repeat forEach perform]. unfold bind. rewrite (close_inactive c Hc).
      now rewrite (IH c Hc). }
    rewrite (Hrest (closed this) eq_refl). now rewrite app_nil_r. }
  pose proof (reachable_invariant Hr) as Hinv.
  repeat split; try reflexivity.
  - now apply close_active.
  - intros actions later. apply close_inactive.
    now apply run_stays_inactive.
  - exact Hn.
  - intros n r Hin. unfold effects_of. rewrite Hn. cbn [snd].
    rewrite completions_close_effects.
    now apply NoDup_count_occ'; [apply (inv_receivers Hinv)|].
  - intros n s Hin. unfold effects_of. rewrite Hn. cbn [snd].
    rewrite cancellations_close_effects.
    now apply NoDup_count_occ'; [apply (inv_senders Hinv)|].
Qed.

(** ** Frame reassembly *)


Section Reassembly.

Variable encoders : option Encoders.
Hypothesis contract : codec_contract (Frame := Frame) encoders.

Lemma serialized_nonempty :
  forall (frame : Frame) bytes,
    serializeFrameWithLength frame encoders = Return bytes -> bytes <> [].
Proof.
  intros frame bytes Hs ->.
  pose proof (extract_frame contract frame [] Hs (extract_empty contract)) as H.
  cbn [app] in H. rewrite (extract_empty contract) in H. discriminate.
Qed.

Lemma incomplete_extract :
  forall (p : Buffer) (frames : list Frame),
    incomplete encoders p frames -> deserializeFrames p encoders = Return ([], p).
Proof.
  intros p frames [-> | (frame & bytes & rest & _ & Hs & Hp)].
  - apply (extract_empty contract).
  - apply (extract_partial contract frame Hs Hp).
Qed.

Lemma extract_frames :
  forall (frames : list Frame) buffers rest frames' remaining,
    serialized encoders frames buffers ->
    deserializeFrames rest encoders = Return (frames', remaining) ->
    deserializeFrames (concat buffers ++ rest) encoders
    = Return (frames ++ frames', remaining).
Proof.
  intros frames buffers rest frames' remaining Hs Hr.
  induction Hs as [|frame bytes frames buffers Hf Hs IH]; [assumption|].
  cbn [concat app]. rewrite <- app_assoc.
  now apply (extract_frame contract).
Qed.

Lemma serialized_app :
  forall (f1 f2 : list Frame) b1 b2,
    serialized encoders f1 b1 -> serialized encoders f2 b2 ->
    serialized encoders (f1 ++ f2) (b1 ++ b2).
Proof. intros. now apply Forall2_app. Qed.

(** a prefix of a serialized stream is some complete frames and an incomplete rest *)
Lemma stream_split :
  forall (frames : list Frame) buffers,
    serialized encoders frames buffers ->
    forall x y : Buffer,
      x ++ y = concat buffers ->
      exists frames1 frames2 buffers1 buffers2 p,
        frames = frames1 ++ frames2 /\
        buffers = buffers1 ++ buffers2 /\
        serialized encoders frames1 buffers1 /\
        serialized encoders frames2 buffers2 /\
        x = concat buffers1 ++ p /\
        p ++ y = concat buffers2 /\
        incomplete encoders p frames2.
Proof.
  intros frames buffers Hs.
  induction Hs as [|frame bytes frames buffers Hf Hs IH]; intros x y Hxy.
  - cbn [concat] in Hxy. apply app_eq_nil in Hxy as [-> ->].
    exists [], [], [], [], []. conjuncts; try reflexivity; try (now constructor).
  - cbn [concat] in Hxy. apply app_eq_app in Hxy as [l [[Hx Hy] | [Hb Hy]]].
    + (* x covers the first frame *)
      destruct (IH l y (eq_sym Hy)) as (f1 & f2 & b1 & b2 & p & -> & -> & H1 & H2 & Hl & Hp & Hi).
      exists (frame :: f1), f2, (bytes :: b1), b2, p.
      conjuncts; try assumption; try reflexivity.
      * now constructor.
      * cbn [concat]. rewrite <- app_assoc. now rewrite Hx, Hl.
    + (* x stops inside the first frame, or at its end *)
      destruct l as [|b l].
      * rewrite app_nil_r in Hb. cbn [app] in Hy. subst x y.
        destruct (IH [] (concat buffers) eq_refl)
          as (f1 & f2 & b1 & b2 & p & -> & -> & H1 & H2 & Hl & Hp & Hi).
        symmetry in Hl. apply app_eq_nil in Hl as [Hl ->].
        exists [frame], (f1 ++ f2), [bytes], (b1 ++ b2), [].
        conjuncts; try reflexivity.
        -- repeat constructor. assumption.
        -- now apply serialized_app.
        -- cbn [concat]. now rewrite !app_nil_r.
        -- now left.
      * exists [], (frame :: frames), [], (bytes :: buffers), x.
        conjuncts; try reflexivity; try (now constructor).
        -- cbn [concat]. rewrite Hb, <- app_assoc. now rewrite Hy.
        -- right. exists frame, bytes, frames. repeat split; try assumption.
           exists (b :: l). split; [discriminate | assumption].
Qed.

Lemma incomplete_whole :
  forall (p : Buffer) (frames : list Frame) buffers,
    serialized encoders frames buffers ->
    incomplete encoders p frames ->
    p = concat buffers ->
    p = [] /\ frames = [] /\ buffers = [].
Proof.
  intros p frames buffers Hs Hi Hp.
  destruct Hi as [-> | (frame & bytes & rest & -> & Hf & (l & Hl & Hb))].
  - revert Hp. destruct Hs as [|frame bytes frames buffers Hf Hs]; intros Hp;
      [now repeat split|].
    cbn [concat] in Hp. symmetry in Hp. apply app_eq_nil in Hp as [Hb _].
    now apply serialized_nonempty in Hf.
  - destruct buffers as [|bytes' buffers]; [inversion Hs|].
    apply Forall2_cons_iff in Hs as [Hf' Hs].
    rewrite Hf in Hf'. injection Hf' as <-.
    rewrite Hb in Hp. cbn [concat] in Hp. apply (f_equal (@length byte)) in Hp.
    rewrite !length_app in Hp.
    destruct l; [congruence | cbn [length] in Hp; lia].
Qed.

Lemma set_buffer_same : forall this : Conn, set_buffer (_buffer this) this = this.
Proof. now intros []. Qed.

Lemma broadcast_app :
  forall (f1 f2 : list Frame) (receivers : JSSet.t),
    broadcast (Encoders := Encoders) (SocketOptions := SocketOptions)
      (f1 ++ f2) receivers
    = broadcast f1 receivers ++ broadcast f2 receivers.
Proof. intros. unfold broadcast. apply flat_map_app. Qed.

(** Feeding part of a serialized stream, in chunks cut anywhere: the frames
    that are complete have been delivered, in order, and the buffer holds
    exactly the bytes after them. *)
Lemma feed_stream :
  forall (chunks : list Buffer) (this : Conn) (frames : list Frame) buffers (y : Buffer),
    _encoders this = encoders ->
    serialized encoders frames buffers ->
    incomplete encoders (_buffer this) frames ->
    _buffer this ++ concat chunks ++ y = concat buffers ->
    exists frames1 frames2 buffers1 buffers2 remaining,
      frames = frames1 ++ frames2 /\
      buffers = buffers1 ++ buffers2 /\
      serialized encoders frames1 buffers1 /\
      serialized encoders frames2 buffers2 /\
      feed chunks this
      = (Return tt, set_buffer remaining this, broadcast frames1 (_receivers this)) /\
      _buffer this ++ concat chunks = concat buffers1 ++ remaining /\
      remaining ++ y = concat buffers2 /\
      incomplete encoders remaining frames2.
Proof.
  induction chunks as [|chunk chunks IH]; intros this frames buffers y He Hs Hi Hy.
  - exists [], frames, [], buffers, (_buffer this).
    cbn [concat app] in *. rewrite app_nil_r.
    conjuncts; try reflexivity; try (now constructor); try assumption.
    unfold feed. cbn [forEach]. now rewrite set_buffer_same.
  - cbn [concat] in Hy.
    assert (Hy' : (_buffer this ++ chunk) ++ (concat chunks ++ y) = concat buffers).
    { rewrite <- Hy. now rewrite <- !app_assoc. }
    destruct (stream_split Hs _ _ Hy')
      as (f1 & f2 & b1 & b2 & p & -> & -> & H1 & H2 & Hx & Hp & Hip).
    assert (Hd : deserializeFrames (_buffer this ++ chunk) (_encoders this)
                 = Return (f1, p)).
    { rewrite He, Hx.
      rewrite (@extract_frames _ _ _ _ _ H1 (incomplete_extract Hip)).
      now rewrite app_nil_r. }
    destruct (IH (set_buffer p this) f2 b2 y He H2 Hip)
      as (g1 & g2 & c1 & c2 & remaining & -> & -> & G1 & G2 & Hrun & Hbuf & Hrem & Hir).
    { exact Hp. }
    exists (f1 ++ g1), g2, (b1 ++ c1), c2, remaining.
    conjuncts; try assumption.
    + now rewrite app_assoc.
    + now rewrite app_assoc.
    + now apply serialized_app.
    + unfold feed. cbn [forEach]. unfold bind.
      rewrite (_handleData_returns chunk this Hd).
      unfold feed in Hrun. rewrite Hrun. cbn [set_buffer _receivers _buffer].
      now rewrite broadcast_app.
    + cbn [concat set_buffer _buffer] in *. rewrite app_assoc, Hx.
      rewrite concat_app, <- !app_assoc. now rewrite Hbuf.
Qed.

End Reassembly.

(** ** What a receiver is handed *)

Lemma received_app :
  forall (r : Subscriber) (t1 t2 : list Eff),
    received r (t1 ++ t2) = received r t1 ++ received r t2.
Proof.
  intros r t1 t2. induction t1 as [|e t1 IH]; [reflexivity|].
  destruct e; cbn [app received]; try assumption.
  destruct (Nat.eqb subscriber r); [cbn [app]; now rewrite IH | assumption].
Qed.

Lemma received_one_frame :
  forall (r : Subscriber) (frame : Frame) (receivers : list Subscriber),
    received (Encoders := Encoders) (SocketOptions := SocketOptions)
      r (map (fun s => OnNext s frame) receivers)
    = repeat frame (count_occ Nat.eq_dec receivers r).
Proof.
  intros r frame receivers. induction receivers as [|s receivers IH]; [reflexivity|].
  cbn [map received count_occ]. destruct (Nat.eq_dec s r) as [->|Hne].
  - rewrite Nat.eqb_refl. cbn [repeat]. now rewrite IH.
  - apply Nat.eqb_neq in Hne. now rewrite Hne.
Qed.

(** a registered receiver is handed every frame, once, in order *)
Lemma received_broadcast :
  forall (r : Subscriber) (frames : list Frame) (receivers : JSSet.t),
    NoDup receivers -> In r receivers ->
    received (Encoders := Encoders) (SocketOptions := SocketOptions)
      r (broadcast frames receivers) = frames.
Proof.
  intros r frames receivers Hn Hin. unfold broadcast, JSSet.values.
  induction frames as [|frame frames IH]; [reflexivity|].
  cbn [flat_map]. rewrite received_app, received_one_frame, IH.
  rewrite (proj1 (NoDup_count_occ' Nat.eq_dec receivers) Hn r Hin). reflexivity.
Qed.

Lemma received_broadcast_nobody :
  forall (r : Subscriber) (frames : list Frame),
    received (Encoders := Encoders) (SocketOptions := SocketOptions)
      r (broadcast frames []) = [].
Proof. intros r frames. induction frames as [|frame frames IH]; [reflexivity | exact IH]. Qed.

Lemma received_broadcast_error :
  forall (r : Subscriber) (error : Error) (receivers : JSSet.t),
    received (Frame := Frame) (Encoders := Encoders) (SocketOptions := SocketOptions)
      r (broadcast_error error receivers) = [].
Proof.
  intros r error receivers. unfold broadcast_error, JSSet.values.
  induction receivers as [|s receivers IH]; [reflexivity | exact IH].
Qed.

Lemma received_close_effects :
  forall (r : Subscriber) (this : Conn),
    received (Frame := Frame) r (close_effects this) = [].
Proof.
  intros r this. unfold close_effects, JSSet.values. cbn [app received].
  rewrite !received_app.
  assert (H1 : forall l, received (Frame := Frame) (Encoders := Encoders)
                 (SocketOptions := SocketOptions) r (map OnComplete l) = []).
  { induction l; [reflexivity | assumption]. }
  assert (H2 : forall l, received (Frame := Frame) (Encoders := Encoders)
                 (SocketOptions := SocketOptions) r (map Cancel l) = []).
  { induction l; [reflexivity | assumption]. }
  now rewrite H1, H2.
Qed.

Lemma received__handleError :
  forall (r : Subscriber) (error : Error) (this : Conn),
    received r (effects_of (_handleError (Frame := Frame) error) this) = [].
Proof.
  intros r error this. rewrite _handleError_effects, received_app, received_broadcast_error.
  destruct (_active this); [apply received_close_effects | reflexivity].
Qed.

Lemma feed_cons :
  forall (chunk : Buffer) (chunks : list Buffer) (this : Conn),
    feed (chunk :: chunks) this =
    (Return tt,
     state_after (feed chunks) (state_after (_handleData chunk) this),
     effects_of (_handleData chunk) this
     ++ effects_of (feed chunks) (state_after (_handleData chunk) this)).
Proof.
  intros chunk chunks this. unfold feed. cbn [forEach].
  rewrite (@bind_returning _ _ _ _ tt _ (_handleData_result chunk this)).
  now rewrite (forEach_result _handleData chunks _handleData_result).
Qed.

(** with nobody registered, data is handed to nobody *)
Lemma feed_nobody :
  forall (chunks : list Buffer) (this : Conn) (r : Subscriber),
    _receivers this = [] -> received r (effects_of (feed chunks) this) = [].
Proof.
  induction chunks as [|chunk chunks IH]; intros this r H; [reflexivity|].
  unfold effects_of at 1. rewrite feed_cons. cbn [snd]. rewrite received_app.
  unfold state_after at 1, effects_of at 1. rewrite _handleData_run.
  destruct (deserializeFrames (_buffer this ++ chunk) (_encoders this))
    as [[frames remaining]|error].
  - cbn [fst snd]. rewrite H, received_broadcast_nobody. now apply IH.
  - fold (effects_of (_handleError (Frame := Frame) error) this).
    fold (state_after (_handleError (Frame := Frame) error) this).
    rewrite received__handleError, _handleError_state. apply IH.
    now destruct (_active this).
Qed.

(** all receivers registered when a run of data events starts are handed the
    same frames in the same order *)
Lemma feed_same_for_all :
  forall (chunks : list Buffer) (this : Conn),
    NoDup (_receivers this) ->
    exists frames : list Frame,
      forall r, In r (_receivers this) ->
                received r (effects_of (feed chunks) this) = frames.
Proof.
  induction chunks as [|chunk chunks IH]; intros this Hn.
  - now exists [].
  - destruct (deserializeFrames (_buffer this ++ chunk) (_encoders this))
      as [[frames remaining]|error] eqn:E.
    + destruct (IH (set_buffer remaining this) Hn) as [rest Hrest].
      exists (frames ++ rest). intros r Hin.
      unfold effects_of at 1. rewrite feed_cons. cbn [snd]. rewrite received_app.
      unfold state_after at 1, effects_of at 1.
      rewrite (_handleData_returns chunk this E). cbn [fst snd].
      rewrite (@received_broadcast r frames _ Hn Hin). now rewrite (Hrest r Hin).
    + destruct (_active this) eqn:Ha.
      * exists []. intros r Hin.
        unfold effects_of at 1. rewrite feed_cons. cbn [snd]. rewrite received_app.
        unfold state_after at 1, effects_of at 1.
        rewrite (_handleData_throws chunk this E).
        fold (effects_of (_handleError (Frame := Frame) error) this).
        fold (state_after (_handleError (Frame := Frame) error) this).
        rewrite received__handleError, _handleError_state, Ha.
        now apply feed_nobody.
      * destruct (IH this Hn) as [rest Hrest].
        exists rest. intros r Hin.
        unfold effects_of at 1. rewrite feed_cons. cbn [snd]. rewrite received_app.
        unfold state_after at 1, effects_of at 1.
        rewrite (_handleData_throws chunk this E).
        fold (effects_of (_handleError (Frame := Frame) error) this).
        fold (state_after (_handleError (Frame := Frame) error) this).
        rewrite received__handleError, _handleError_state, Ha.
        now apply Hrest.
Qed.

Lemma concat_singletons :
  forall (A : Type) (l : list A), concat (map (fun x => [x]) l) = l.
Proof. intros A l. induction l as [|x l IH]; [reflexivity|]. cbn. now rewrite IH. Qed.

(** C1: a valid serialized frame sequence, cut into data chunks in any way,
    reaches the receivers as exactly the original frames in the original
    order.  The data handler concatenates the chunk to the buffered remainder,
    applies the codec's extraction once, keeps the returned remainder as the
    buffer and hands the extracted frames, in extraction order, to every
    registered receiver; over the whole stream the deliveries are the original
    frames, whether the bytes come all at once, one byte at a time, or split
    anywhere in between. *)
Theorem chunked_stream_is_delivered_in_order :
  forall (this : Conn) (frames : list Frame) (buffers chunks : list Buffer),
    reachable (Frame := Frame) this ->
    codec_contract (Frame := Frame) (_encoders this) ->
    serialized (_encoders this) frames buffers ->
    _buffer this = [] ->
    concat chunks = concat buffers ->
    (* one step of the data handler *)
    (forall (c : Conn) chunk extracted remaining,
        deserializeFrames (_buffer c ++ chunk) (_encoders c)
          = Return (extracted, remaining) ->
        _handleData chunk c
        = (Return tt, set_buffer remaining c, broadcast extracted (_receivers c))) /\
    (* the whole stream, in these chunks *)
    feed chunks this = (Return tt, this, broadcast frames (_receivers this)) /\
    (forall subscriber,
        In subscriber (_receivers this) ->
        received subscriber (effects_of (feed chunks) this) = frames) /\
    (* all at once, and one byte at a time *)
    feed [concat buffers] this = (Return tt, this, broadcast frames (_receivers this)) /\
    feed (map (fun b => [b]) (concat buffers)) this
    = (Return tt, this, broadcast frames (_receivers this)).
Proof.
  intros this frames buffers chunks Hr Hc Hs Hb Hchunks.
  assert (Hfeed : forall chunks',
             concat chunks' = concat buffers ->
             feed chunks' this = (Return tt, this, broadcast frames (_receivers this))).
  { intros chunks' Hcc.
    destruct (@feed_stream (_encoders this) Hc chunks' this frames buffers [] eq_refl Hs)
      as (f1 & f2 & b1 & b2 & remaining & -> & -> & H1 & H2 & Hrun & Hbuf & Hrem & Hi).
    - left. assumption.
    - now rewrite Hb, app_nil_r.
    - rewrite app_nil_r in Hrem.
      destruct (incomplete_whole Hc H2 Hi Hrem) as (-> & -> & ->).
      rewrite Hrun, !app_nil_r. rewrite <- Hb at 1. now rewrite set_buffer_same. }
  conjuncts.
  - intros c chunk extracted remaining H. now apply _handleData_returns.
  - now apply Hfeed.
  - intros r Hin. unfold effects_of. rewrite (Hfeed chunks Hchunks). cbn [snd].
    apply received_broadcast; [|assumption].
    apply (inv_receivers (reachable_invariant Hr)).
  - apply Hfeed. cbn [concat]. now rewrite app_nil_r.
  - apply Hfeed. apply concat_singletons.
Qed.

(** C5: broadcast, not partition.  When a data event yields frames, every
    registered receiver is handed each of them exactly once, in the order of
    extraction; over any run of data events all the receivers registered at its
    start are handed one and the same sequence of frames. *)
Theorem every_receiver_gets_every_frame :
  forall (this : Conn) (chunk : Buffer) (frames : list Frame) (remaining : Buffer),
    reachable (Frame := Frame) this ->
    deserializeFrames (_buffer this ++ chunk) (_encoders this)
      = Return (frames, remaining) ->
    effects_of (_handleData chunk) this = broadcast frames (_receivers this) /\
    (forall subscriber,
        In subscriber (_receivers this) ->
        received subscriber (effects_of (_handleData chunk) this) = frames) /\
    (forall subscriber,
        In subscriber (_receivers this) ->
        count_occ Nat.eq_dec (_receivers this) subscriber = 1) /\
    (forall chunks s1 s2,
        In s1 (_receivers this) -> In s2 (_receivers this) ->
        received s1 (effects_of (feed chunks) this)
        = received s2 (effects_of (feed chunks) this)).
Proof.
  intros this chunk frames remaining Hr Hd.
  pose proof (inv_receivers (reachable_invariant Hr)) as Hn.
  assert (He : effects_of (_handleData chunk) this = broadcast frames (_receivers this)).
  { unfold effects_of. now rewrite (_handleData_returns chunk this Hd). }
  conjuncts.
  - exact He.
  - intros r Hin. rewrite He. now apply received_broadcast.
  - now apply NoDup_count_occ'.
  - intros chunks s1 s2 H1 H2.
    destruct (feed_same_for_all chunks this Hn) as [fs Hfs].
    now rewrite (Hfs s1 H1), (Hfs s2 H2).
Qed.

(** C6: the reassembly buffer holds only bytes not yet resolved into a
    complete frame.  After a data-handling step the buffer is exactly the
    remainder the codec's extraction returned (an extraction that throws
    leaves the buffer as it was, and the connection closes).  Over a stream of
    serialized frames cut into chunks anywhere, at every moment the bytes
    received so far are the bytes of the frames already emitted followed by
    the buffer, so no byte of an emitted frame is kept; the buffer stops
    inside the next frame (or is empty) and holds no complete frame. *)
Theorem buffer_is_the_unconsumed_tail :
  forall this : Conn,
    (forall chunk (frames : list Frame) remaining,
        deserializeFrames (_buffer this ++ chunk) (_encoders this)
          = Return (frames, remaining) ->
        _buffer (state_after (_handleData chunk) this) = remaining) /\
    (forall chunk error,
        deserializeFrames (Frame := Frame) (_buffer this ++ chunk) (_encoders this)
          = Throw error ->
        _buffer (state_after (_handleData chunk) this) = _buffer this /\
        _active (state_after (_handleData chunk) this) = false) /\
    (forall (frames : list Frame) buffers chunks later,
        codec_contract (Frame := Frame) (_encoders this) ->
        serialized (_encoders this) frames buffers ->
        _buffer this = [] ->
        concat chunks ++ later = concat buffers ->
        exists emitted pending emitted_bytes pending_bytes,
          frames = emitted ++ pending /\
          serialized (_encoders this) emitted emitted_bytes /\
          serialized (_encoders this) pending pending_bytes /\
          effects_of (feed chunks) this = broadcast emitted (_receivers this) /\
          concat chunks
          = concat emitted_bytes ++ _buffer (state_after (feed chunks) this) /\
          _buffer (state_after (feed chunks) this) ++ later = concat pending_bytes /\
          incomplete (_encoders this) (_buffer (state_after (feed chunks) this)) pending /\
          deserializeFrames (_buffer (state_after (feed chunks) this)) (_encoders this)
          = Return ([], _buffer (state_after (feed chunks) this))).
Proof.
  intros this. conjuncts.
  - intros chunk frames remaining H. unfold state_after.
    now rewrite (_handleData_returns chunk this H).
  - intros chunk error H. unfold state_after.
    rewrite (_handleData_throws chunk this H). split.
    + rewrite _handleError_run. cbn [fst snd]. now destruct (_active this) eqn:E.
    + apply _handleError_stays_inactive.
  - intros frames buffers chunks later Hc Hs Hb Hl.
    destruct (@feed_stream (_encoders this) Hc chunks this frames buffers later eq_refl Hs)
      as (f1 & f2 & b1 & b2 & remaining & -> & -> & H1 & H2 & Hrun & Hbuf & Hrem & Hi).
    + left. assumption.
    + now rewrite Hb.
    + exists f1, f2, b1, b2. unfold effects_of, state_after. rewrite Hrun.
      cbn [fst snd set_buffer _buffer]. rewrite Hb in Hbuf. cbn [app] in Hbuf.
      conjuncts; try assumption; try reflexivity.
      now apply (incomplete_extract Hc Hi).
Qed.

(** C10: a subject of [receive()] is registered by [request()], not by
    [onSubscribe]; [cancel()] removes it; a later [request()] on the same
    subscription registers the same subscriber again, once (a second
    [request()] adds nothing), and it is then handed the frames of every data
    event that follows. *)
Theorem receiver_is_registered_on_request :
  forall (this : Conn) (subject : Subscriber),
    reachable (Frame := Frame) this ->
    (* onSubscribe hands over the subscription and registers nothing *)
    receive_subscribe (Frame := Frame) subject this
    = (Return tt, this, [SubjectOnSubscribe subject]) /\
    (* request() registers, once *)
    In subject (_receivers (state_after (receive_request (Frame := Frame) subject) this)) /\
    count_occ Nat.eq_dec
      (_receivers (state_after (receive_request (Frame := Frame) subject) this)) subject = 1 /\
    state_after (receive_request (Frame := Frame) subject ;; receive_request subject) this
    = state_after (receive_request (Frame := Frame) subject) this /\
    (* cancel() removes *)
    ~ In subject (_receivers (state_after (receive_cancel (Frame := Frame) subject) this)) /\
    (* request() after cancel() registers the same subscriber again *)
    (let again :=
       state_after (receive_cancel (Frame := Frame) subject ;; receive_request subject) this in
     In subject (_receivers again) /\
     count_occ Nat.eq_dec (_receivers again) subject = 1 /\
     (forall other, other <> subject ->
                    (In other (_receivers again) <-> In other (_receivers this))) /\
     forall chunk (frames : list Frame) remaining,
       deserializeFrames (_buffer again ++ chunk) (_encoders again)
         = Return (frames, remaining) ->
       received subject (effects_of (_handleData chunk) again) = frames).
Proof.
  intros this subject Hr.
  pose proof (inv_receivers (reachable_invariant Hr)) as Hn.
  assert (Hadd : NoDup (JSSet.add subject (_receivers this))).
  { now apply JSSet_add_NoDup. }
  assert (Hre : NoDup (JSSet.add subject (JSSet.delete subject (_receivers this)))).
  { now apply JSSet_add_NoDup, JSSet_delete_NoDup. }
  cbv zeta. conjuncts.
  - reflexivity.
  - apply JSSet_add_In.
  - apply NoDup_count_occ'; [exact Hadd | apply JSSet_add_In].
  - unfold state_after, receive_request, bind, modify. cbn [fst snd].
    unfold set_receivers. cbn [_receivers]. now rewrite JSSet_add_idem.
  - unfold state_after, receive_cancel, modify. cbn [fst snd set_receivers _receivers].
    rewrite JSSet_delete_In. intros [_ H]. now apply H.
  - apply JSSet_add_In.
  - apply NoDup_count_occ'; [exact Hre | apply JSSet_add_In].
  - intros other Hne. unfold state_after, receive_cancel, receive_request, bind, modify.
    cbn [fst snd set_receivers _receivers]. unfold JSSet.add.
    destruct (JSSet.has subject (JSSet.delete subject (_receivers this))).
    + rewrite JSSet_delete_In. tauto.
    + rewrite in_app_iff, JSSet_delete_In. cbn [In]. intuition congruence.
  - intros chunk frames remaining H.
    unfold effects_of. rewrite (_handleData_returns chunk _ H). cbn [snd].
    apply received_broadcast; [exact Hre | apply JSSet_add_In].
Qed.

(** ** What reaches the socket and the receivers *)

Lemma written_app :
  forall t1 t2 : list Eff, written (t1 ++ t2) = written t1 ++ written t2.
Proof.
  intros t1 t2. induction t1 as [|e t1 IH]; [reflexivity|].
  destruct e; cbn [app written]; try assumption. now rewrite IH.
Qed.

Lemma written__handleError :
  forall (error : Error) (this : Conn),
    written (effects_of (_handleError (Frame := Frame) error) this) = [].
Proof.
  intros error this. rewrite _handleError_effects, written_app.
  assert (H1 : written (broadcast_error error (_receivers this) : list Eff) = []).
  { unfold broadcast_error, JSSet.values.
    induction (_receivers this); [reflexivity | assumption]. }
  rewrite H1. destruct (_active this); [|reflexivity].
  unfold close_effects, JSSet.values. cbn [app written]. rewrite !written_app.
  assert (H2 : forall l, written (Frame := Frame) (Encoders := Encoders)
                 (SocketOptions := SocketOptions) (map OnComplete l) = []).
  { induction l; [reflexivity | assumption]. }
  assert (H3 : forall l, written (Frame := Frame) (Encoders := Encoders)
                 (SocketOptions := SocketOptions) (map Cancel l) = []).
  { induction l; [reflexivity | assumption]. }
  now rewrite H2, H3.
Qed.

(** [_writeFrame] hands the serialized frame to [socket.write], whatever [_active] is *)
Lemma written__writeFrame :
  forall (frame : Frame) (this : Conn),
    written (effects_of (_writeFrame frame) this)
    = match serializeFrameWithLength frame (_encoders this) with
      | Return bytes => [bytes]
      | Throw _ => []
      end.
Proof.
  intros frame this. unfold effects_of at 1. rewrite _writeFrame_run.
  destruct (serializeFrameWithLength frame (_encoders this)) as [bytes|error].
  - destruct (socket_write_throws (_socket this) bytes) as [error|]; cbn [snd written];
      [|reflexivity].
    now rewrite written__handleError.
  - apply written__handleError.
Qed.

Lemma _writeFrame_encoders :
  forall (frame : Frame) (this : Conn),
    _encoders (state_after (_writeFrame frame) this) = _encoders this.
Proof.
  intros frame this. unfold state_after at 1. rewrite _writeFrame_run.
  destruct (serializeFrameWithLength frame (_encoders this)) as [bytes|error].
  - destruct (socket_write_throws (_socket this) bytes) as [error|]; cbn [fst snd];
      [|reflexivity].
    rewrite _handleError_state. now destruct (_active this).
  - fold (state_after (_handleError (Frame := Frame) error) this).
    rewrite _handleError_state. now destruct (_active this).
Qed.



Lemma no_delivery_to_nobody :
  forall (error : Error) (this : Conn),
    _active this = false -> _receivers this = [] ->
    effects_of (_handleError (Frame := Frame) error) this = [].
Proof.
  intros error this Ha Hr. rewrite _handleError_effects, Ha, Hr. reflexivity.
Qed.

(** C3, as the code has it: [_active] goes from true to false and never
    back.  Once it is false the socket's listeners are detached, so no socket
    event (data, error, end, close) reaches the connection, calls a receiver or
    writes; close() has emptied the receiver set, and as long as nobody
    registers again nothing at all is delivered.  The send path, however, does
    not look at [_active]: sendOne(frame) and a frame emitted by a producer are
    serialized and handed to socket.write on a closed connection as on an open
    one, and a subscriber that calls request() after the close is still handed
    the error of a later failing send. *)
Theorem active_only_falls :
  forall this : Conn,
    reachable (Frame := Frame) this ->
    _active (state_after (close (Frame := Frame)) this) = false /\
    (forall actions,
        _active this = false ->
        _active (state_after (forEach actions perform) this) = false) /\
    (_active this = false ->
     forall ev, socket_emit (Frame := Frame) ev this = (Return tt, this, [])) /\
    (_active this = true ->
     _receivers (state_after (close (Frame := Frame)) this) = []) /\
    (_active this = false -> _receivers this = [] ->
     forall a, filter is_delivery (effects_of (perform a) this) = []) /\
    (forall (frame : Frame) bytes,
        serializeFrameWithLength frame (_encoders this) = Return bytes ->
        written (effects_of (sendOne frame) this) = [bytes] /\
        written (effects_of (send_onNext frame) this) = [bytes]) /\
    (forall error subject,
        _active this = false ->
        In (OnError subject error)
           (effects_of (receive_request (Frame := Frame) subject ;; send_onError error) this)).
Proof.
  intros this Hr. pose proof (reachable_invariant Hr) as Hinv. conjuncts.
  - apply close_stays_inactive.
  - intros actions Ha. now apply run_stays_inactive.
  - intros Ha ev. apply socket_emit_detached.
    destruct (inv_closed Hinv Ha) as [_ Hs]. now rewrite Hs.
  - intros Ha. unfold state_after. now rewrite (close_active this Ha).
  - intros Ha Hn a.
    assert (Hw : forall frame,
               filter is_delivery (effects_of (_writeFrame frame) this) = []).
    { intros frame. unfold effects_of at 1. rewrite _writeFrame_run.
      destruct (serializeFrameWithLength frame (_encoders this)) as [bytes|error].
      - destruct (socket_write_throws (_socket this) bytes) as [error|]; cbn [snd];
          [|reflexivity].
        now rewrite (no_delivery_to_nobody error this Ha Hn).
      - fold (effects_of (_handleError (Frame := Frame) error) this).
        now rewrite (no_delivery_to_nobody error this Ha Hn). }
    destruct a; cbn [perform]; try reflexivity; try apply Hw.
    + now destruct subscription.
    + unfold send_onError. now rewrite (no_delivery_to_nobody error this Ha Hn).
    + unfold effects_of. now rewrite (close_inactive this Ha).
    + unfold effects_of. rewrite socket_emit_detached; [reflexivity|].
      destruct (inv_closed Hinv Ha) as [_ Hs]. now rewrite Hs.
  - intros frame bytes Hs. unfold sendOne, send_onNext.
    rewrite written__writeFrame, Hs. now split.
  - intros error subject Ha.
    unfold effects_of, receive_request, send_onError. rewrite bind_modify.
    rewrite _handleError_run. cbn [snd set_receivers _receivers _active].
    rewrite Ha, app_nil_r. unfold broadcast_error, JSSet.values.
    apply in_map_iff. exists subject. split; [reflexivity | apply JSSet_add_In].
Qed.

(** ** The error path *)

(** C4: every failure after the connect runs the one error path,
    [_handleError]: [onError(err)] to every registered receiver, in order,
    then [close()], after which [onClose()] is resolved.  The socket's
    [error] event, a decode error thrown by the codec's extraction, a frame
    that cannot be serialized, a [socket.write] that throws, and the socket's
    [end] event (which makes up the error "Socket closed unexpectedly") all
    run it. *)
Theorem every_failure_runs_the_error_path :
  forall this : Conn,
    reachable (Frame := Frame) this ->
    (* the path *)
    (forall error,
        _handleError (Frame := Frame) error this
        = (Return tt,
           state_after (close (Frame := Frame)) this,
           broadcast_error error (_receivers this)
           ++ effects_of (close (Frame := Frame)) this)) /\
    (forall error,
        onClose (state_after (_handleError (Frame := Frame) error) this) = true /\
        _active (state_after (_handleError (Frame := Frame) error) this) = false) /\
    (* the socket's error event *)
    (_active this = true ->
     forall error,
       socket_emit (Frame := Frame) (EvError error) this = _handleError error this) /\
    (* a decode error *)
    (forall chunk error,
        deserializeFrames (Frame := Frame) (_buffer this ++ chunk) (_encoders this)
          = Throw error ->
        _handleData chunk this = _handleError (Frame := Frame) error this /\
        (_active this = true ->
         socket_emit (EvData chunk) this = _handleError (Frame := Frame) error this)) /\
    (* a frame that cannot be serialized *)
    (forall (frame : Frame) error,
        serializeFrameWithLength frame (_encoders this) = Throw error ->
        sendOne frame this = _handleError error this /\
        send_onNext frame this = _handleError error this) /\
    (* a write that throws *)
    (forall (frame : Frame) bytes error,
        serializeFrameWithLength frame (_encoders this) = Return bytes ->
        socket_write_throws (_socket this) bytes = Some error ->
        sendOne frame this
        = (Return tt,
           state_after (_handleError (Frame := Frame) error) this,
           SocketWrite bytes :: effects_of (_handleError (Frame := Frame) error) this)) /\
    (* the socket's end event, with no close() before *)
    (_active this = true ->
     socket_emit (Frame := Frame) EvEnd this
     = _handleError (mkError "RSocketTcpClient: Socket closed unexpectedly.") this).
Proof.
  intros this Hr. pose proof (reachable_invariant Hr) as Hinv.
  assert (Hl : _active this = true -> listeners (_socket this) = connection_listeners).
  { intros Ha. destruct (inv_open Hinv Ha) as [_ Hs]. now rewrite Hs. }
  conjuncts.
  - intros error. rewrite _handleError_run. unfold state_after, effects_of.
    now rewrite close_run.
  - intros error. rewrite _handleError_state. unfold onClose.
    destruct (_active this) eqn:Ha; [now split|].
    destruct (inv_closed Hinv Ha) as [Hc _]. now split.
  - intros Ha error. now rewrite (socket_emit_attached _ this (Hl Ha)).
  - intros chunk error Hd. split.
    + now apply _handleData_throws.
    + intros Ha. rewrite (socket_emit_attached _ this (Hl Ha)).
      now apply _handleData_throws.
  - intros frame error Hs. unfold sendOne, send_onNext.
    split; now apply _writeFrame_cannot_serialize.
  - intros frame bytes error Hs Hw. unfold sendOne.
    now apply _writeFrame_cannot_write.
  - intros Ha. now rewrite (socket_emit_attached _ this (Hl Ha)).
Qed.

(** C9, as the code has it: when the error path runs on a connection that is
    still active, every receiver registered at that moment is handed
    [onError(err)] and, after it, [onComplete()]: the error handler leaves the
    receivers in the set and the [close()] that follows completes them before
    it clears the set.  When the path runs after [close()] already ran (a
    failing send on a closed connection), [close()] returns at once: the
    receivers registered since are handed [onError(err)] and no
    [onComplete()]. *)
Theorem error_then_completion_while_active :
  forall (this : Conn) (error : Error),
    reachable (Frame := Frame) this ->
    (_active this = true ->
     effects_of (_handleError (Frame := Frame) error) this
     = map (fun subscriber => OnError subscriber error) (_receivers this)
       ++ [CloseResolve]
       ++ map OnComplete (_receivers this)
       ++ map Cancel (_senders this)
       ++ [SocketRemoveAllListeners; SocketEnd] /\
     _receivers (state_after (_handleError (Frame := Frame) error) this) = [] /\
     forall subscriber,
       In subscriber (_receivers this) ->
       completions subscriber (effects_of (_handleError (Frame := Frame) error) this) = 1 /\
       exists before between after,
         effects_of (_handleError (Frame := Frame) error) this
         = before ++ [OnError subscriber error] ++ between
           ++ [OnComplete subscriber] ++ after) /\
    (_active this = false ->
     effects_of (_handleError (Frame := Frame) error) this
     = map (fun subscriber => OnError subscriber error) (_receivers this) /\
     state_after (_handleError (Frame := Frame) error) this = this /\
     forall subscriber,
       completions subscriber (effects_of (_handleError (Frame := Frame) error) this) = 0).
Proof.
  intros this error Hr. pose proof (reachable_invariant Hr) as Hinv. split.
  - intros Ha.
    assert (He : effects_of (_handleError (Frame := Frame) error) this
                 = map (fun subscriber => OnError subscriber error) (_receivers this)
                   ++ [CloseResolve]
                   ++ map OnComplete (_receivers this)
                   ++ map Cancel (_senders this)
                   ++ [SocketRemoveAllListeners; SocketEnd]).
    { now rewrite _handleError_effects, Ha. }
    conjuncts.
    + exact He.
    + now rewrite _handleError_state, Ha.
    + intros r Hin. split.
      * rewrite _handleError_effects, Ha, completions_app, completions_close_effects.
        assert (H0 : completions r (broadcast_error error (_receivers this) : list Eff) = 0).
        { unfold broadcast_error, JSSet.values. clear.
          induction (_receivers this) as [|x l IHl]; [reflexivity | exact IHl]. }
        rewrite H0. now apply NoDup_count_occ'; [apply (inv_receivers Hinv)|].
      * rewrite He. apply in_split in Hin as (l1 & l2 & Hl). rewrite Hl.
        exists (map (fun s => OnError s error) l1),
          (map (fun s => OnError s error) l2 ++ [CloseResolve] ++ map OnComplete l1),
          (map OnComplete l2 ++ map Cancel (_senders this)
           ++ [SocketRemoveAllListeners; SocketEnd]).
        rewrite !map_app. cbn [map]. rewrite <- !app_assoc. cbn [app]. reflexivity.
  - intros Ha.
    assert (He : effects_of (_handleError (Frame := Frame) error) this
                 = map (fun subscriber => OnError subscriber error) (_receivers this)).
    { rewrite _handleError_effects, Ha. apply app_nil_r. }
    conjuncts.
    + exact He.
    + now rewrite _handleError_state, Ha.
    + intros r. rewrite He. clear.
      induction (_receivers this) as [|x l IHl]; [reflexivity | exact IHl].
Qed.

(** ** send() *)


(** ** connect() *)

Lemma transport_emit_detached :
  forall (ev : SocketEvent) (client : RSocketTcpClient) (socket : Socket),
    listeners socket = [] ->
    transport_emit (Frame := Frame) ev (Connecting client socket)
    = (Connecting (Encoders := Encoders) (SocketOptions := SocketOptions) client socket, []).
Proof.
  intros ev client socket H. unfold transport_emit, listeners_of. cbn [transport_socket].
  now rewrite H.
Qed.

Lemma transport_run_detached :
  forall (evs : list SocketEvent) (client : RSocketTcpClient) (socket : Socket),
    listeners socket = [] ->
    transport_run (Frame := Frame) evs (Connecting client socket)
    = (Connecting (Encoders := Encoders) (SocketOptions := SocketOptions) client socket, []).
Proof.
  induction evs as [|ev evs IH]; intros client socket H; [reflexivity|].
  cbn [transport_run]. rewrite (transport_emit_detached ev client socket H).
  now rewrite (IH client socket H).
Qed.

(** C7: if the socket reports an error before it connects, the future of
    [connect()] fails with that error after the socket's listeners were
    detached, and whatever the socket emits later no
    [TcpDuplexConnection] is constructed; if the socket connects, the
    listeners are detached first and then the future is resolved with a new
    [TcpDuplexConnection] around that socket, carrying the client's options
    and encoders, with its own four listeners attached. *)
Theorem connect_fails_or_constructs :
  forall client : RSocketTcpClient (Encoders := Encoders) (SocketOptions := SocketOptions),
    let pending := fst (connect (Frame := Frame) client) in
    snd (connect (Frame := Frame) client)
    = [NetConnect (client_options client); FutureOnSubscribe] /\
    (* an error before the connect *)
    (forall error,
        transport_emit (Frame := Frame) (EvError error) pending
        = (Connecting client (socket_removeAllListeners net_connect),
           [SocketRemoveAllListeners; FutureOnError error])) /\
    listeners (socket_removeAllListeners net_connect) = [] /\
    (forall error later,
        transport_run (Frame := Frame) (EvError error :: later) pending
        = (Connecting client (socket_removeAllListeners net_connect),
           [SocketRemoveAllListeners; FutureOnError error])) /\
    (* the connect *)
    transport_emit (Frame := Frame) EvConnect pending
    = (Connected (initial (client_options client) (client_encoders client)),
       [SocketRemoveAllListeners;
        FutureOnComplete (initial (client_options client) (client_encoders client))]) /\
    initial (client_options client) (client_encoders client)
    = new_TcpDuplexConnection (client_options client) (client_encoders client)
        (socket_removeAllListeners (transport_socket pending)) /\
    _socket (initial (client_options client) (client_encoders client))
    = {| listeners := connection_listeners; ended := false |} /\
    _active (initial (client_options client) (client_encoders client)) = true.
Proof.
  intros client pending. conjuncts; try reflexivity.
  intros error later. cbn [transport_run].
  change (transport_emit (Frame := Frame) (EvError error) pending)
    with (Connecting client (socket_removeAllListeners net_connect),
          ([SocketRemoveAllListeners; FutureOnError error] : list Eff)).
  cbv beta iota. now rewrite transport_run_detached.
Qed.

(** ** Which effects an action can have *)

Lemma effects_of_cons :
  forall (a : Action) (actions : list Action) (this : Conn),
    effects_of (forEach (a :: actions) perform) this
    = effects_of (perform a) this
      ++ effects_of (forEach actions perform) (state_after (perform a) this).
Proof.
  intros a actions this. cbn [forEach]. unfold effects_of at 1.
  now rewrite (@bind_returning _ _ _ _ tt _ (perform_result a this)).
Qed.

Lemma state_after_cons :
  forall (a : Action) (actions : list Action) (this : Conn),
    state_after (forEach (a :: actions) perform) this
    = state_after (forEach actions perform) (state_after (perform a) this).
Proof.
  intros a actions this. cbn [forEach]. unfold state_after at 1.
  now rewrite (@bind_returning _ _ _ _ tt _ (perform_result a this)).
Qed.

(** An action has no effect of kind [p] when none of the calls it can reach
    has: frames are broadcast and [close()] does its work only on an active
    connection, writes come from the send path only. *)
Lemma perform_free :
  forall (p : Eff -> bool) (a : Action) (this : Conn),
    connection_invariant this ->
    (_active this = true ->
     forall frames, filter p (broadcast frames (_receivers this)) = []) ->
    (forall error, filter p (broadcast_error error (_receivers this)) = []) ->
    (_active this = true -> filter p (close_effects this) = []) ->
    (is_send a = true -> forall bytes, p (SocketWrite bytes) = false) ->
    (forall s n, p (Request s n) = false) ->
    (forall s, p (SubjectOnSubscribe s) = false) ->
    filter p (effects_of (perform a) this) = [].
Proof.
  intros p a this Hinv Hdata Herr Hclose Hwrite Hreq Hsub.
  assert (Hpath : forall error,
             filter p (effects_of (_handleError (Frame := Frame) error) this) = []).
  { intros error. rewrite _handleError_effects, filter_app, Herr.
    destruct (_active this) eqn:Ha; [now apply Hclose | reflexivity]. }
  assert (Hsend : is_send a = true ->
                  forall frame, filter p (effects_of (_writeFrame frame) this) = []).
  { intros Hs frame. unfold effects_of at 1. rewrite _writeFrame_run.
    destruct (serializeFrameWithLength frame (_encoders this)) as [bytes|error].
    - destruct (socket_write_throws (_socket this) bytes) as [error|];
        cbn [snd filter]; rewrite (Hwrite Hs bytes); [apply Hpath | reflexivity].
    - apply Hpath. }
  assert (Hc : filter p (effects_of (close (Frame := Frame)) this) = []).
  { unfold effects_of. rewrite close_run. cbn [snd].
    destruct (_active this) eqn:Ha; [now apply Hclose | reflexivity]. }
  destruct a; cbn [perform].
  - now apply Hsend.
  - unfold effects_of, send_onSubscribe, bind, call, modify, ret. cbn [snd app filter].
    now rewrite Hreq.
  - now apply Hsend.
  - now destruct subscription.
  - apply Hpath.
  - unfold effects_of, receive_subscribe, call. cbn [snd filter]. now rewrite Hsub.
  - reflexivity.
  - reflexivity.
  - exact Hc.
  - destruct (_active this) eqn:Ha.
    + destruct (inv_open Hinv Ha) as [_ Hs].
      unfold effects_of. rewrite socket_emit_attached by now rewrite Hs.
      destruct ev; try reflexivity.
      * rewrite _handleData_run.
        destruct (deserializeFrames (_buffer this ++ chunk) (_encoders this))
          as [[frames remaining]|error]; [now apply Hdata | apply Hpath].
      * apply Hpath.
      * apply Hpath.
      * exact Hc.
    + destruct (inv_closed Hinv Ha) as [_ Hs].
      unfold effects_of. rewrite socket_emit_detached by now rewrite Hs.
      reflexivity.
Qed.

(** what an action can do to the receiver set *)
Lemma perform_receivers :
  forall (a : Action) (this : Conn),
    connection_invariant this ->
    _receivers (state_after (perform a) this) = _receivers this \/
    _receivers (state_after (perform a) this) = [] \/
    (exists s, a = DoReceiveRequest s /\
               _receivers (state_after (perform a) this) = JSSet.add s (_receivers this)) \/
    (exists s, a = DoReceiveCancel s /\
               _receivers (state_after (perform a) this)
               = JSSet.delete s (_receivers this)).
Proof.
  intros a this Hinv.
  assert (Hpath : forall error,
             _receivers (state_after (_handleError (Frame := Frame) error) this)
             = _receivers this \/
             _receivers (state_after (_handleError (Frame := Frame) error) this) = []).
  { intros error. rewrite _handleError_state. destruct (_active this); [now right | now left]. }
  assert (Hsend : forall frame,
             _receivers (state_after (_writeFrame frame) this) = _receivers this \/
             _receivers (state_after (_writeFrame frame) this) = []).
  { intros frame. unfold state_after at 1 2. rewrite _writeFrame_run.
    destruct (serializeFrameWithLength frame (_encoders this)) as [bytes|error].
    - destruct (socket_write_throws (_socket this) bytes) as [error|]; cbn [fst snd];
        [apply Hpath | now left].
    - apply Hpath. }
  assert (Hc : _receivers (state_after (close (Frame := Frame)) this) = _receivers this \/
               _receivers (state_after (close (Frame := Frame)) this) = []).
  { unfold state_after. rewrite close_run. cbn [fst snd].
    destruct (_active this); [now right | now left]. }
  destruct a; cbn [perform].
  - destruct (Hsend frame); tauto.
  - now left.
  - destruct (Hsend frame); tauto.
  - left. now destruct subscription.
  - destruct (Hpath error); tauto.
  - now left.
  - right. right. left. now exists subject.
  - right. right. right. now exists subject.
  - tauto.
  - destruct (_active this) eqn:Ha.
    + destruct (inv_open Hinv Ha) as [_ Hs].
      unfold state_after. rewrite socket_emit_attached by now rewrite Hs.
      destruct ev.
      * now left.
      * rewrite _handleData_run.
        destruct (deserializeFrames (_buffer this ++ chunk) (_encoders this))
          as [[frames remaining]|error]; [now left|].
        destruct (Hpath error); tauto.
      * destruct (Hpath (mkError "RSocketTcpClient: Socket closed unexpectedly.")); tauto.
      * destruct (Hpath error); tauto.
      * tauto.
    + destruct (inv_closed Hinv Ha) as [_ Hs].
      unfold state_after. rewrite socket_emit_detached by now rewrite Hs.
      now left.
Qed.

(** ** Effects of one kind in the building blocks *)

Lemma filter_map_free :
  forall (A : Type) (p : Eff -> bool) (g : A -> Eff) (l : list A),
    (forall x, In x l -> p (g x) = false) -> filter p (map g l) = [].
Proof.
  intros A p g l H. induction l as [|x l IH]; [reflexivity|].
  cbn [map filter]. rewrite (H x (or_introl eq_refl)). apply IH.
  intros y Hy. apply H. now right.
Qed.

Lemma filter_broadcast_free :
  forall (p : Eff -> bool) (frames : list Frame) (receivers : JSSet.t),
    (forall s frame, In s receivers -> p (OnNext s frame) = false) ->
    filter p (broadcast frames receivers) = [].
Proof.
  intros p frames receivers H. unfold broadcast, JSSet.values.
  induction frames as [|frame frames IH]; [reflexivity|].
  cbn [flat_map]. rewrite filter_app, IH, app_nil_r.
  apply filter_map_free. intros s Hs. now apply H.
Qed.

Lemma filter_broadcast_error_free :
  forall (p : Eff -> bool) (error : Error) (receivers : JSSet.t),
    (forall s, In s receivers -> p (OnError s error) = false) ->
    filter p (broadcast_error error receivers : list Eff) = [].
Proof.
  intros p error receivers H. unfold broadcast_error, JSSet.values.
  now apply filter_map_free.
Qed.

Lemma filter_close_effects :
  forall (p : Eff -> bool) (this : Conn),
    (forall s, In s (_receivers this) -> p (OnComplete s) = false) ->
    (forall s, p (Cancel s) = false) ->
    filter p (close_effects this)
    = filter p ([CloseResolve; SocketRemoveAllListeners; SocketEnd] : list Eff).
Proof.
  intros p this Hc Hs. unfold close_effects, JSSet.values.
  rewrite !filter_app, (filter_map_free p OnComplete (_receivers this) Hc).
  rewrite (filter_map_free p Cancel (_senders this) (fun s _ => Hs s)).
  cbn [app filter]. destruct (p CloseResolve); reflexivity.
Qed.

Lemma written_filter :
  forall t : list Eff, filter is_write t = [] -> written t = [].
Proof.
  induction t as [|e t IH]; [reflexivity|].
  destruct e; cbn [filter is_write written]; try exact IH. discriminate.
Qed.

Lemma JSSet_add_In_iff :
  forall x y s, In y (JSSet.add x s) <-> In y s \/ y = x.
Proof.
  intros x y s. unfold JSSet.add. destruct (JSSet.has x s) eqn:E.
  - apply JSSet_has_In in E. split; [tauto|]. intros [H | ->]; assumption.
  - rewrite in_app_iff. cbn [In]. intuition congruence.
Qed.

(** ** The state of a connection *)



(** ** After close() *)

Lemma closed_run_free :
  forall (actions : list Action) (this : Conn),
    connection_invariant this ->
    _active this = false ->
    filter is_stream_signal (effects_of (forEach actions perform) this) = [].
Proof.
  induction actions as [|a actions IH]; intros this Hinv Ha; [reflexivity|].
  rewrite effects_of_cons, filter_app.
  rewrite IH; [|now apply perform_invariant | now apply perform_stays_inactive].
  rewrite app_nil_r. apply perform_free; try assumption; try reflexivity.
  - intros Ht. congruence.
  - intros error. now apply filter_broadcast_error_free.
  - intros Ht. congruence.
Qed.

(** X7: once a connection is closed, nothing of a working stream happens on
    it again: whatever is called and whatever the socket emits, no receiver
    is handed a frame or completed, and no producer is cancelled, not even
    those that subscribe or request after the close. *)
Theorem closed_connection_streams_nothing :
  forall (this : Conn) (actions : list Action),
    reachable (Frame := Frame) this ->
    _active this = false ->
    filter is_stream_signal (effects_of (forEach actions perform) this) = [] /\
    (forall subscriber,
        received subscriber (effects_of (forEach actions perform) this) = [] /\
        completions subscriber (effects_of (forEach actions perform) this) = 0) /\
    (forall subscription,
        cancellations subscription (effects_of (forEach actions perform) this) = 0).
Proof.
  intros this actions Hr Ha.
  pose proof (closed_run_free actions (reachable_invariant Hr) Ha) as H.
  revert H. generalize (effects_of (forEach actions perform) this) as t.
  intros t H. split; [exact H|].
  induction t as [|e t IH]; [now repeat split|].
  destruct e; cbn [filter is_stream_signal] in H; try discriminate;
    specialize (IH H); cbn [received completions cancellations]; exact IH.
Qed.

(** ** A receiver that is not registered *)

Lemma unregistered_run_free :
  forall (subject : Subscriber) (actions : list Action) (this : Conn),
    connection_invariant this ->
    ~ In subject (_receivers this) ->
    Forall (fun a => a <> DoReceiveRequest subject) actions ->
    filter (concerns subject) (effects_of (forEach actions perform) this) = [].
Proof.
  intros subject actions. induction actions as [|a actions IH]; intros this Hinv Hn Hall;
    [reflexivity|].
  apply Forall_cons_iff in Hall as [Ha Hall].
  assert (Hne : forall s, In s (_receivers this) -> Nat.eqb s subject = false).
  { intros s Hs. apply Nat.eqb_neq. intros ->. now apply Hn. }
  rewrite effects_of_cons, filter_app.
  rewrite IH; [| now apply perform_invariant | | assumption].
  - rewrite app_nil_r. apply perform_free; try assumption; try reflexivity.
    + intros _ frames. apply filter_broadcast_free.
      intros s frame Hs. cbn [concerns]. now apply Hne.
    + intros error. apply filter_broadcast_error_free.
      intros s Hs. cbn [concerns]. now apply Hne.
    + intros _. rewrite filter_close_effects; [reflexivity | | reflexivity].
      intros s Hs. cbn [concerns]. now apply Hne.
  - destruct (perform_receivers a Hinv) as [H | [H | [(s & -> & H) | (s & -> & H)]]];
      rewrite H.
    + assumption.
    + intros [].
    + rewrite JSSet_add_In_iff. intros [Hin | ->]; [now apply Hn | now apply Ha].
    + rewrite JSSet_delete_In. intros [Hin _]. now apply Hn.
Qed.

(** X8: a subject whose subscription was cancelled is left alone.  Until
    [request()] is called on its subscription again, nothing that happens to
    the connection (data, errors, close, other subscribers coming and going)
    calls its [onNext], [onError] or [onComplete]; the same holds for a
    subject that never requested. *)
Theorem cancelled_receiver_is_left_alone :
  forall (this : Conn) (subject : Subscriber) (actions : list Action),
    reachable (Frame := Frame) this ->
    Forall (fun a => a <> DoReceiveRequest subject) actions ->
    filter (concerns subject)
           (effects_of (receive_cancel subject ;; forEach actions perform) this) = [] /\
    (~ In subject (_receivers this) ->
     filter (concerns subject) (effects_of (forEach actions perform) this) = []).
Proof.
  intros this subject actions Hr Hall. pose proof (reachable_invariant Hr) as Hinv. split.
  - unfold effects_of, receive_cancel. rewrite bind_modify.
    apply (unregistered_run_free (subject := subject)); [| | assumption].
    + apply set_receivers_invariant; [|assumption].
      apply JSSet_delete_NoDup, Hinv.
    + cbn [set_receivers _receivers]. rewrite JSSet_delete_In. intros [_ H]. now apply H.
  - intros Hn. now apply unregistered_run_free.
Qed.

(** ** Giving the connection up, once *)

Lemma release_close_effects :
  forall this : Conn,
    filter is_release (close_effects (Frame := Frame) this)
    = [CloseResolve; SocketRemoveAllListeners; SocketEnd].
Proof. intros this. now rewrite filter_close_effects. Qed.

Lemma perform_release :
  forall (a : Action) (this : Conn),
    connection_invariant this ->
    filter is_release (effects_of (perform a) this)
    = if _active this && negb (_active (state_after (perform a) this))
      then [CloseResolve; SocketRemoveAllListeners; SocketEnd]
      else [].
Proof.
  intros a this Hinv. destruct (_active this) eqn:Ha; cbn [andb].
  2:{ apply perform_free; try assumption; try reflexivity; try congruence.
      intros error. now apply filter_broadcast_error_free. }
  assert (Hpath : forall error,
             filter is_release (effects_of (_handleError (Frame := Frame) error) this)
             = [CloseResolve; SocketRemoveAllListeners; SocketEnd] /\
             _active (state_after (_handleError (Frame := Frame) error) this) = false).
  { intros error. rewrite _handleError_effects, _handleError_state, Ha, filter_app.
    rewrite filter_broadcast_error_free by reflexivity.
    now rewrite release_close_effects. }
  assert (Hsend : forall frame,
             filter is_release (effects_of (_writeFrame frame) this)
             = if negb (_active (state_after (_writeFrame frame) this))
               then [CloseResolve; SocketRemoveAllListeners; SocketEnd]
               else []).
  { intros frame. unfold effects_of at 1, state_after at 1. rewrite _writeFrame_run.
    destruct (serializeFrameWithLength frame (_encoders this)) as [bytes|error].
    - destruct (socket_write_throws (_socket this) bytes) as [error|]; cbn [fst snd filter is_release].
      + destruct (Hpath error) as [H1 H2]. now rewrite H1, H2.
      + now rewrite Ha.
    - fold (effects_of (_handleError (Frame := Frame) error) this).
      fold (state_after (_handleError (Frame := Frame) error) this).
      destruct (Hpath error) as [H1 H2]. now rewrite H1, H2. }
  assert (Hc : filter is_release (effects_of (close (Frame := Frame)) this)
               = if negb (_active (state_after (close (Frame := Frame)) this))
                 then [CloseResolve; SocketRemoveAllListeners; SocketEnd]
                 else []).
  { unfold effects_of, state_after. rewrite (close_active this Ha). cbn [fst snd].
    apply release_close_effects. }
  destruct a; cbn [perform].
  - apply Hsend.
  - unfold effects_of, state_after, send_onSubscribe, bind, call, modify, ret.
    cbn [fst snd app filter is_release set_senders _active]. now rewrite Ha.
  - apply Hsend.
  - destruct subscription; unfold effects_of, state_after, send_onComplete, modify, ret;
      cbn [fst snd filter set_senders _active]; now rewrite Ha.
  - unfold send_onError. destruct (Hpath error) as [H1 H2]. now rewrite H1, H2.
  - unfold effects_of, state_after, receive_subscribe, call.
    cbn [fst snd filter is_release]. now rewrite Ha.
  - unfold effects_of, state_after, receive_request, modify.
    cbn [fst snd filter set_receivers _active]. now rewrite Ha.
  - unfold effects_of, state_after, receive_cancel, modify.
    cbn [fst snd filter set_receivers _active]. now rewrite Ha.
  - apply Hc.
  - destruct (inv_open Hinv Ha) as [_ Hs].
    unfold effects_of, state_after. rewrite socket_emit_attached by now rewrite Hs.
    destruct ev.
    + cbn [fst snd filter]. now rewrite Ha.
    + rewrite _handleData_run.
      destruct (deserializeFrames (_buffer this ++ chunk) (_encoders this))
        as [[frames remaining]|error].
      * cbn [fst snd set_buffer _active]. rewrite Ha.
        now apply filter_broadcast_free.
      * fold (effects_of (_handleError (Frame := Frame) error) this).
        fold (state_after (_handleError (Frame := Frame) error) this).
        destruct (Hpath error) as [H1 H2]. now rewrite H1, H2.
    + unfold _handleEnd.
      destruct (Hpath (mkError "RSocketTcpClient: Socket closed unexpectedly."))
        as [H1 H2].
      unfold effects_of, state_after in H1, H2. now rewrite H1, H2.
    + destruct (Hpath error) as [H1 H2].
      unfold effects_of, state_after in H1, H2. now rewrite H1, H2.
    + exact Hc.
Qed.

Lemma run_release :
  forall (actions : list Action) (this : Conn),
    connection_invariant this ->
    filter is_release (effects_of (forEach actions perform) this)
    = if _active this && negb (_active (state_after (forEach actions perform) this))
      then [CloseResolve; SocketRemoveAllListeners; SocketEnd]
      else [].
Proof.
  induction actions as [|a actions IH]; intros this Hinv.
  - cbn. now destruct (_active this).
  - rewrite effects_of_cons, state_after_cons, filter_app.
    rewrite (perform_release a Hinv), (IH _ (perform_invariant a Hinv)).
    destruct (_active this) eqn:Ha; cbn [andb].
    + destruct (_active (state_after (perform a) this)) eqn:Ha'; cbn [andb negb app];
        [reflexivity|].
      now rewrite (run_stays_inactive actions _ Ha').
    + now rewrite (perform_stays_inactive a this Ha).
Qed.

(** X5: a connection is given up once.  Over everything that can happen to
    it from its construction on, the close notification is resolved, the
    socket's listeners are detached and the socket is ended at most once
    each, in this order, and exactly once if the connection ends up
    inactive: a second [close()], an error after the close or a socket event
    after an error never releases the socket again. *)
Theorem connection_is_released_once :
  forall (this : Conn) (actions : list Action),
    reachable (Frame := Frame) this ->
    filter is_release (effects_of (forEach actions perform) this)
    = (if _active this && negb (_active (state_after (forEach actions perform) this))
       then [CloseResolve; SocketRemoveAllListeners; SocketEnd]
       else []) /\
    (forall options encoders,
        this = initial options encoders ->
        _active (state_after (forEach actions perform) this) = false ->
        filter is_release (effects_of (forEach actions perform) this)
        = [CloseResolve; SocketRemoveAllListeners; SocketEnd]).
Proof.
  intros this actions Hr. pose proof (run_release actions (reachable_invariant Hr)) as H.
  split; [exact H|].
  intros options encoders -> Hf. rewrite H, Hf. reflexivity.
Qed.

(** ** What is written to the socket *)

Lemma perform_encoders :
  forall (a : Action) (this : Conn),
    connection_invariant this ->
    _encoders (state_after (perform a) this) = _encoders this.
Proof.
  intros a this Hinv.
  assert (Hpath : forall error,
             _encoders (state_after (_handleError (Frame := Frame) error) this)
             = _encoders this).
  { intros error. rewrite _handleError_state. now destruct (_active this). }
  destruct a; cbn [perform]; try reflexivity.
  - apply _writeFrame_encoders.
  - apply _writeFrame_encoders.
  - now destruct subscription.
  - apply Hpath.
  - unfold state_after. rewrite close_run. cbn [fst snd]. now destruct (_active this).
  - destruct (_active this) eqn:Ha.
    + destruct (inv_open Hinv Ha) as [_ Hs].
      unfold state_after. rewrite socket_emit_attached by now rewrite Hs.
      destruct ev; try reflexivity.
      * rewrite _handleData_run.
        destruct (deserializeFrames (_buffer this ++ chunk) (_encoders this))
          as [[frames remaining]|error]; [reflexivity | apply Hpath].
      * apply Hpath.
      * apply Hpath.
      * rewrite close_run. cbn [fst snd]. now rewrite Ha.
    + destruct (inv_closed Hinv Ha) as [_ Hs].
      unfold state_after. rewrite socket_emit_detached by now rewrite Hs.
      reflexivity.
Qed.

Lemma perform_written :
  forall (a : Action) (this : Conn),
    connection_invariant this ->
    written (effects_of (perform a) this)
    = match a with
      | DoSendOne frame | DoSendOnNext frame =>
          match serializeFrameWithLength frame (_encoders this) with
          | Return bytes => [bytes]
          | Throw _ => []
          end
      | _ => []
      end.
Proof.
  intros a this Hinv.
  assert (Hother : is_send a = false -> written (effects_of (perform a) this) = []).
  { intros Hs. apply written_filter. apply perform_free; try assumption; try reflexivity.
    - intros _ frames. now apply filter_broadcast_free.
    - intros error. now apply filter_broadcast_error_free.
    - intros _. now rewrite filter_close_effects.
    - congruence. }
  destruct a; try (now apply Hother); cbn [perform]; apply written__writeFrame.
Qed.

(** X11: the bytes handed to [socket.write] over the life of a connection
    are exactly the serializations of the frames given to [sendOne] or
    emitted by producers, one write per frame, in the order the frames were
    handed over (a frame that cannot be serialized is skipped).  Nothing else
    writes: not inbound data, not a subscription, not an error, not
    [close()]. *)
Theorem writes_are_the_frames_sent :
  forall (this : Conn) (actions : list Action),
    reachable (Frame := Frame) this ->
    written (effects_of (forEach actions perform) this)
    = flat_map
        (fun a =>
           match a with
           | DoSendOne frame | DoSendOnNext frame =>
               match serializeFrameWithLength frame (_encoders this) with
               | Return bytes => [bytes]
               | Throw _ => []
               end
           | _ => []
           end) actions.
Proof.
  intros this actions Hr. pose proof (reachable_invariant Hr) as Hinv. clear Hr.
  revert this Hinv. induction actions as [|a actions IH]; intros this Hinv; [reflexivity|].
  rewrite effects_of_cons, written_app, (perform_written a Hinv).
  rewrite (IH _ (perform_invariant a Hinv)), (perform_encoders a Hinv).
  reflexivity.
Qed.

(** ** The socket's close event *)

(** X3: when the socket of an active connection emits [close], the listener
    is [close()] itself: the receivers are completed, the producers
    cancelled and the socket released, and, unlike for [end] and [error], no
    receiver is handed an error.  A [connect] event finds no listener on a
    connection. *)
Theorem socket_close_event_closes_without_error :
  forall this : Conn,
    reachable (Frame := Frame) this ->
    _active this = true ->
    socket_emit (Frame := Frame) EvClose this
    = (Return tt, closed this, close_effects this) /\
    (forall subscriber error,
        ~ In (OnError subscriber error)
             (effects_of (socket_emit (Frame := Frame) EvClose) this)) /\
    (forall subscriber,
        In subscriber (_receivers this) ->
        In (OnComplete subscriber)
           (effects_of (socket_emit (Frame := Frame) EvClose) this)) /\
    socket_emit (Frame := Frame) EvConnect this = (Return tt, this, []).
Proof.
  intros this Hr Ha. pose proof (reachable_invariant Hr) as Hinv.
  destruct (inv_open Hinv Ha) as [_ Hs].
  assert (Hl : listeners (_socket this) = connection_listeners) by now rewrite Hs.
  assert (He : socket_emit (Frame := Frame) EvClose this
               = (Return tt, closed this, close_effects this)).
  { rewrite (socket_emit_attached EvClose this Hl). now apply close_active. }
  conjuncts.
  - exact He.
  - intros subscriber error. unfold effects_of. rewrite He. cbn [snd].
    unfold close_effects, JSSet.values. rewrite !in_app_iff, !in_map_iff. cbn [In].
    intros [[H | []] | [(s & H & _) | [(s & H & _) | [H | [H | []]]]]]; discriminate.
  - intros subscriber Hin. unfold effects_of. rewrite He. cbn [snd].
    unfold close_effects, JSSet.values. rewrite !in_app_iff, in_map_iff.
    right. left. now exists subscriber.
  - now rewrite (socket_emit_attached EvConnect this Hl).
Qed.

(** ** Data that cannot be decoded, and frames that arrive in pieces *)

(** X9: a chunk on which the codec's extraction throws is lost as a whole.
    No receiver is handed a frame for it, also not for frames that were
    complete in it before the malformed bytes, and nothing of the chunk is
    kept in the buffer; the connection is closed. *)
Theorem undecodable_chunk_delivers_no_frame :
  forall (this : Conn) (chunk : Buffer) (error : Error),
    deserializeFrames (Frame := Frame) (_buffer this ++ chunk) (_encoders this)
      = Throw error ->
    (forall subscriber,
        received subscriber (effects_of (_handleData chunk) this) = []) /\
    _buffer (state_after (_handleData chunk) this) = _buffer this /\
    _active (state_after (_handleData chunk) this) = false /\
    _receivers (state_after (_handleData chunk) this)
    = (if _active this then [] else _receivers this).
Proof.
  intros this chunk error H.
  unfold effects_of, state_after. rewrite (_handleData_throws chunk this H).
  fold (effects_of (_handleError (Frame := Frame) error) this).
  fold (state_after (_handleError (Frame := Frame) error) this).
  conjuncts.
  - intros subscriber. apply received__handleError.
  - rewrite _handleError_state. now destruct (_active this).
  - apply _handleError_stays_inactive.
  - rewrite _handleError_state. now destruct (_active this).
Qed.

(** X10: a frame is delivered by the data event that brings its last byte,
    and not before.  If the bytes of a serialized frame arrive in two pieces
    on an empty buffer, the first piece is buffered and nothing is delivered;
    the second piece delivers the frame to every receiver and leaves the
    buffer empty.  An empty chunk in between changes nothing. *)
Theorem frame_is_delivered_with_its_last_byte :
  forall (this : Conn) (frame : Frame) (bytes first rest : Buffer),
    codec_contract (Frame := Frame) (_encoders this) ->
    serializeFrameWithLength frame (_encoders this) = Return bytes ->
    bytes = first ++ rest ->
    rest <> [] ->
    _buffer this = [] ->
    _handleData first this = (Return tt, set_buffer first this, []) /\
    _handleData [] (set_buffer first this) = (Return tt, set_buffer first this, []) /\
    _handleData rest (set_buffer first this)
    = (Return tt, this, broadcast [frame] (_receivers this)).
Proof.
  intros this frame bytes first rest Hc Hs Hb Hr Hbuf.
  assert (Hp : deserializeFrames first (_encoders this) = Return (@nil Frame, first)).
  { apply (extract_partial Hc frame Hs). exists rest. now split. }
  conjuncts.
  - rewrite (@_handleData_returns first this [] first); [reflexivity|].
    now rewrite Hbuf.
  - rewrite (@_handleData_returns [] (set_buffer first this) [] first); [reflexivity|].
    cbn [set_buffer _buffer _encoders]. now rewrite app_nil_r.
  - rewrite (@_handleData_returns rest (set_buffer first this) [frame] []).
    + assert (Hsame : set_buffer [] (set_buffer first this) = this).
      { destruct this. cbn in Hbuf. subst. reflexivity. }
      now rewrite Hsame.
    + cbn [set_buffer _buffer _encoders]. rewrite <- Hb.
      rewrite <- (app_nil_r bytes).
      apply (extract_frame Hc frame [] Hs (extract_empty Hc)).
Qed.

(** ** connect(), cancelled or answered *)


Lemma transport_serve_all_connected :
  forall (ev : SocketEvent) (rs : list Registration) (this : Conn),
    transport_serve_all ev rs (Connected this)
    = (Connected
         (state_after
            (forEach rs (fun r =>
               modify (fun this => set_socket (drop_once r (_socket this)) this) ;;
               call_listener (reg_listener r) ev)) this),
       effects_of
         (forEach rs (fun r =>
            modify (fun this => set_socket (drop_once r (_socket this)) this) ;;
            call_listener (reg_listener r) ev)) this).
Proof.
  intros ev rs. induction rs as [|r rs IH]; intros this; [reflexivity|].
  cbn [transport_serve_all transport_serve forEach].
  assert (Hres : result_of
                   (modify (fun this => set_socket (drop_once r (_socket this)) this) ;;
                    call_listener (reg_listener r) ev) this = Return tt).
  { unfold result_of. rewrite bind_modify. apply call_listener_result. }
  unfold state_after at 1, effects_of at 1.
  rewrite (@bind_returning _ _ _ _ tt _ Hres). cbn [fst snd].
  rewrite (run_eta (modify (fun this => set_socket (drop_once r (_socket this)) this) ;;
                    call_listener (reg_listener r) ev) this).
  now rewrite IH.
Qed.

(** once the connection exists, the socket's events are the connection's *)
Lemma transport_emit_connected :
  forall (ev : SocketEvent) (this : Conn),
    transport_emit ev (Connected this)
    = (Connected (state_after (socket_emit ev) this), effects_of (socket_emit ev) this).
Proof.
  intros ev this. unfold transport_emit. cbn [transport_socket].
  rewrite transport_serve_all_connected.
  unfold state_after, effects_of, socket_emit. now rewrite bind_get.
Qed.

Lemma transport_run_connected :
  forall (evs : list SocketEvent) (this : Conn),
    connection_invariant this ->
    filter is_settlement (snd (transport_run evs (Connected this))) = [].
Proof.
  induction evs as [|ev evs IH]; intros this Hinv; [reflexivity|].
  cbn [transport_run]. rewrite transport_emit_connected.
  pose proof (IH _ (perform_invariant (DoSocketEmit ev) Hinv)) as Hrest.
  cbn [perform] in Hrest.
  destruct (transport_run evs (Connected (state_after (socket_emit ev) this)))
    as [t2 e2]. cbn [snd] in *. rewrite filter_app, Hrest, app_nil_r.
  apply (perform_free is_settlement (DoSocketEmit ev) Hinv); try reflexivity.
  - intros _ frames. now apply filter_broadcast_free.
  - intros error. now apply filter_broadcast_error_free.
  - intros _. now rewrite filter_close_effects.
Qed.

(** X2: the future of [connect()] is settled at most once, whatever the
    socket emits and in whatever order: an error before the connect fails it,
    the connect completes it, and after either nothing settles it again (an
    error after the connect goes to the connection, not to the future).
    While the attempt is pending, [data], [end] and [close] events find no
    listener: they change nothing and leave the future pending. *)
Theorem connect_future_settles_at_most_once :
  forall (client : RSocketTcpClient (Encoders := Encoders) (SocketOptions := SocketOptions))
         (evs : list SocketEvent),
    length (filter is_settlement
              (snd (transport_run (Frame := Frame) evs (fst (connect (Frame := Frame) client))))) <= 1 /\
    filter is_settlement
      (snd (transport_run (Frame := Frame) (EvConnect :: evs) (fst (connect (Frame := Frame) client))))
    = [FutureOnComplete (initial (client_options client) (client_encoders client))] /\
    (forall error,
        filter is_settlement
          (snd (transport_run (Frame := Frame) (EvError error :: evs) (fst (connect (Frame := Frame) client))))
        = [FutureOnError error]) /\
    (forall chunk,
        transport_emit (Frame := Frame) (EvData chunk) (fst (connect (Frame := Frame) client))
        = (fst (connect (Frame := Frame) client), [])) /\
    transport_emit (Frame := Frame) EvEnd (fst (connect (Frame := Frame) client))
    = (fst (connect (Frame := Frame) client), []) /\
    transport_emit (Frame := Frame) EvClose (fst (connect (Frame := Frame) client))
    = (fst (connect (Frame := Frame) client), []).
Proof.
  intros client evs.
  assert (Hconnect : forall later,
             filter is_settlement
               (snd (transport_run (Frame := Frame) (EvConnect :: later)
                       (fst (connect (Frame := Frame) client))))
             = [FutureOnComplete (initial (client_options client) (client_encoders client))]).
  { intros later. cbn [transport_run].
    change (transport_emit (Frame := Frame) EvConnect (fst (connect (Frame := Frame) client)))
      with (Connected (initial (client_options client) (client_encoders client)),
            ([SocketRemoveAllListeners;
              FutureOnComplete (initial (client_options client) (client_encoders client))]
             : list Eff)).
    cbv beta iota.
    pose proof (transport_run_connected later
                  (initial_invariant (client_options client) (client_encoders client)))
      as Hrest.
    destruct (transport_run later
                (Connected (initial (client_options client) (client_encoders client))))
      as [t2 e2].
    cbn [snd] in *. rewrite filter_app, Hrest. reflexivity. }
  assert (Herror : forall error later,
             filter is_settlement
               (snd (transport_run (Frame := Frame) (EvError error :: later)
                       (fst (connect (Frame := Frame) client))))
             = [FutureOnError error]).
  { intros error later. cbn [transport_run].
    change (transport_emit (Frame := Frame) (EvError error) (fst (connect (Frame := Frame) client)))
      with (Connecting client (socket_removeAllListeners net_connect),
            ([SocketRemoveAllListeners; FutureOnError error] : list Eff)).
    cbv beta iota. now rewrite transport_run_detached. }
  conjuncts; try reflexivity.
  - induction evs as [|ev evs IH]; [cbn; lia|].
    destruct ev.
    + rewrite Hconnect. cbn. lia.
    + cbn [transport_run].
      change (transport_emit (Frame := Frame) (EvData chunk) (fst (connect (Frame := Frame) client)))
        with (fst (connect (Frame := Frame) client), @nil Eff).
      cbv beta iota.
      destruct (transport_run evs (fst (connect (Frame := Frame) client))) as [t2 e2]. exact IH.
    + cbn [transport_run].
      change (transport_emit (Frame := Frame) EvEnd (fst (connect (Frame := Frame) client)))
        with (fst (connect (Frame := Frame) client), @nil Eff).
      cbv beta iota.
      destruct (transport_run evs (fst (connect (Frame := Frame) client))) as [t2 e2]. exact IH.
    + rewrite Herror. cbn. lia.
    + cbn [transport_run].
      change (transport_emit (Frame := Frame) EvClose (fst (connect (Frame := Frame) client)))
        with (fst (connect (Frame := Frame) client), @nil Eff).
      cbv beta iota.
      destruct (transport_run evs (fst (connect (Frame := Frame) client))) as [t2 e2]. exact IH.
  - apply Hconnect.
  - intros error. apply Herror.
Qed.

End Properties.

(** * The sample codec keeps the contract *)

Lemma byte_of_N_to_N : forall n : N, Byte.to_N (byte_of_N n) = (n mod 256)%N.
Proof.
  intros n. unfold byte_of_N.
  destruct (Byte.of_N (n mod 256)) as [b|] eqn:E.
  - now apply Byte.to_of_N.
  - apply Byte.of_N_None_iff in E.
    pose proof (N.mod_upper_bound n 256 ltac:(discriminate)). lia.
Qed.

Lemma readUInt24BE_writeUInt24BE :
  forall n : N,
    (n < 16777216)%N ->
    match writeUInt24BE n with
    | [b1; b2; b3] => readUInt24BE b1 b2 b3 = n
    | _ => False
    end.
Proof.
  intros n Hn. unfold writeUInt24BE, readUInt24BE. rewrite !byte_of_N_to_N.
  change 65536%N with (256 * 256)%N at 1. rewrite <- N.Div0.div_div.
  pose proof (N.div_mod n 256 ltac:(discriminate)) as H1.
  pose proof (N.div_mod (n / 256) 256 ltac:(discriminate)) as H2.
  assert (H3 : (n / 256 / 256 < 256)%N).
  { apply N.Div0.div_lt_upper_bound. apply N.Div0.div_lt_upper_bound. lia. }
  rewrite (N.mod_small _ _ H3). lia.
Qed.

Lemma sample_extract_step :
  forall (fuel : nat) (b1 b2 b3 : byte) (rest : Buffer),
    sample_extract (S fuel) (b1 :: b2 :: b3 :: rest) =
    if (N.of_nat (length rest) <? readUInt24BE b1 b2 b3)%N
    then Return ([], b1 :: b2 :: b3 :: rest)
    else if (readUInt24BE b1 b2 b3 =? 0)%N then Throw (mkError "malformed frame")
    else
      match sample_extract fuel (skipn (N.to_nat (readUInt24BE b1 b2 b3)) rest) with
      | Return (frames, remaining) =>
          Return (mkFrame (firstn (N.to_nat (readUInt24BE b1 b2 b3)) rest) :: frames,
                  remaining)
      | Throw e => Throw e
      end.
Proof. reflexivity. Qed.

(** more fuel than the buffer is long changes nothing *)
Lemma sample_extract_fuel :
  forall (fuel1 fuel2 : nat) (buffer : Buffer),
    length buffer <= fuel1 -> length buffer <= fuel2 ->
    sample_extract fuel1 buffer = sample_extract fuel2 buffer.
Proof.
  induction fuel1 as [|fuel1 IH]; intros fuel2 buffer H1 H2.
  - destruct buffer; [|cbn [length] in H1; lia]. now destruct fuel2.
  - destruct fuel2 as [|fuel2].
    + destruct buffer; [reflexivity | cbn [length] in H2; lia].
    + destruct buffer as [|b1 [|b2 [|b3 rest]]]; try reflexivity.
      rewrite !sample_extract_step.
      destruct (N.of_nat (length rest) <? readUInt24BE b1 b2 b3)%N; [reflexivity|].
      destruct (readUInt24BE b1 b2 b3 =? 0)%N; [reflexivity|].
      cbn [length] in H1, H2.
      pose proof (length_skipn (N.to_nat (readUInt24BE b1 b2 b3)) rest) as Hl.
      rewrite (IH fuel2 (skipn (N.to_nat (readUInt24BE b1 b2 b3)) rest)) by lia.
      reflexivity.
Qed.

Lemma sample_serialize_Return :
  forall (frame : SampleFrame) (bytes : Buffer),
    sample_serialize frame = Return bytes ->
    let n := N.of_nat (length (payload frame)) in
    (0 < n < 16777216)%N /\ bytes = writeUInt24BE n ++ payload frame.
Proof.
  intros frame bytes H n. unfold sample_serialize in H. fold n in H.
  destruct (n =? 0)%N eqn:E0; [discriminate|].
  destruct (16777216 <=? n)%N eqn:E1; [discriminate|].
  apply N.eqb_neq in E0. apply N.leb_gt in E1.
  injection H as <-. split; [lia | reflexivity].
Qed.

Lemma sample_extract_frame :
  forall frame bytes rest frames remaining,
    sample_serialize frame = Return bytes ->
    sample_deserialize rest = Return (frames, remaining) ->
    sample_deserialize (bytes ++ rest) = Return (frame :: frames, remaining).
Proof.
  intros [body] bytes rest frames remaining Hs Hr.
  apply sample_serialize_Return in Hs as [Hn ->]. cbn [payload] in *.
  pose proof (@readUInt24BE_writeUInt24BE (N.of_nat (length body)) (proj2 Hn)) as Hrw.
  unfold writeUInt24BE in *. unfold sample_deserialize. cbn [app length].
  rewrite sample_extract_step, Hrw, length_app.
  destruct (N.of_nat (length body + length rest) <? N.of_nat (length body))%N eqn:E1.
  { apply N.ltb_lt in E1. lia. }
  destruct (N.of_nat (length body) =? 0)%N eqn:E2.
  { apply N.eqb_eq in E2. lia. }
  rewrite Nat2N.id, skipn_app, skipn_all, Nat.sub_diag, firstn_app, firstn_all,
    Nat.sub_diag. cbn [skipn firstn app]. rewrite app_nil_r.
  rewrite (@sample_extract_fuel _ (length rest) rest) by lia.
  unfold sample_deserialize in Hr. now rewrite Hr.
Qed.

Lemma sample_extract_partial :
  forall frame bytes p,
    sample_serialize frame = Return bytes ->
    strict_prefix p bytes ->
    sample_deserialize p = Return ([], p).
Proof.
  intros [body] bytes p Hs (l & Hl & Hb).
  apply sample_serialize_Return in Hs as [Hn ->]. cbn [payload] in *.
  pose proof (@readUInt24BE_writeUInt24BE (N.of_nat (length body)) (proj2 Hn)) as Hrw.
  unfold writeUInt24BE in *. unfold sample_deserialize.
  destruct p as [|b1 [|b2 [|b3 q]]]; try reflexivity.
  cbn [app] in Hb. injection Hb as <- <- <- Hbody.
  cbn [length]. rewrite sample_extract_step, Hrw.
  assert (Hlt : (N.of_nat (length q) <? N.of_nat (length body))%N = true).
  { apply N.ltb_lt. rewrite Hbody, length_app.
    destruct l; [congruence | cbn [length]; lia]. }
  now rewrite Hlt.
Qed.

Theorem sample_codec_contract :
  forall write_throws (encoders : option unit),
    codec_contract (Core := sample_core write_throws) encoders.
Proof.
  intros write_throws encoders. split; cbn [deserializeFrames serializeFrameWithLength sample_core].
  - reflexivity.
  - apply sample_extract_frame.
  - apply sample_extract_partial.
Qed.

(** * The theorems at the sample connection *)

Lemma sample_on_reachable :
  forall write_throws,
    reachable (Core := sample_core write_throws) (sample_on write_throws).
Proof.
  intros write_throws. exists sample_options, None, sample_actions. reflexivity.
Qed.

Lemma sample_closed_reachable :
  reachable (Core := sample_core healthy_socket) sample_closed.
Proof.
  exists sample_options, None, (sample_actions ++ [DoClose]). reflexivity.
Qed.

Lemma sample_late_reachable :
  reachable (Core := sample_core healthy_socket) sample_late.
Proof.
  exists sample_options, None, (sample_actions ++ [DoClose; DoReceiveRequest 3]).
  reflexivity.
Qed.

Lemma sample_serialized :
  serialized (Core := sample_core healthy_socket) None [frame1; frame2] [bytes1; bytes2].
Proof. repeat constructor. Qed.

(** C1 at the sample connection: the spec's two-chunk scenario. *)
Lemma chunked_stream_witness :
  reachable (Core := sample_core healthy_socket) sample_open /\
  codec_contract (Core := sample_core healthy_socket) (_encoders sample_open) /\
  serialized (Core := sample_core healthy_socket)
    (_encoders sample_open) [frame1; frame2] [bytes1; bytes2] /\
  _buffer sample_open = [] /\
  concat [chunk1; chunk2] = concat [bytes1; bytes2] /\
  feed (Core := sample_core healthy_socket) [chunk1; chunk2] sample_open
  = (Return tt, sample_open,
     [OnNext 1 frame1; OnNext 2 frame1; OnNext 1 frame2; OnNext 2 frame2]) /\
  received 1 (effects_of (feed (Core := sample_core healthy_socket) [chunk1; chunk2])
                         sample_open)
  = [frame1; frame2].
Proof.
  pose proof (@chunked_stream_is_delivered_in_order _ _ _
                (sample_core healthy_socket) sample_open
                [frame1; frame2] [bytes1; bytes2] [chunk1; chunk2]
                (sample_on_reachable healthy_socket)
                (sample_codec_contract healthy_socket None)
                sample_serialized eq_refl eq_refl)
    as (_ & Hfeed & Hrec & _).
  split; [apply sample_on_reachable|].
  split; [apply sample_codec_contract|].
  split; [apply sample_serialized|].
  split; [reflexivity|]. split; [reflexivity|].
  split; [exact Hfeed|].
  apply Hrec. left. reflexivity.
Defined.

(** C2 at the sample connection: three [close()] in a row. *)
Lemma close_is_idempotent_witness :
  reachable (Core := sample_core healthy_socket) sample_open /\
  _active sample_open = true /\
  forEach [DoClose; DoClose; DoClose] (perform (Core := sample_core healthy_socket))
    sample_open
  = (Return tt, sample_closed,
     [CloseResolve; OnComplete 1; OnComplete 2; Cancel 7;
      SocketRemoveAllListeners; SocketEnd]) /\
  completions 2
    (effects_of (forEach [DoClose; DoClose; DoClose]
                         (perform (Core := sample_core healthy_socket))) sample_open) = 1.
Proof.
  pose proof (@close_is_idempotent _ _ _ (sample_core healthy_socket) sample_open
                (sample_on_reachable healthy_socket) eq_refl)
    as (_ & _ & _ & _ & _ & _ & _ & _ & _ & Hn & Hc & _).
  split; [apply sample_on_reachable|]. split; [reflexivity|].
  split; [exact (Hn 2)|].
  apply (Hc 2). right. left. reflexivity.
Defined.

(** C3, as claimed, fails at the sample connection: after [close()] the
    connection is inactive, yet [sendOne] hands the serialized frame to
    [socket.write], and a subscriber that requests afterwards is handed the
    error of a failing producer. *)
Lemma write_after_close :
  reachable (Core := sample_core healthy_socket) sample_closed /\
  _active sample_closed = false /\
  sendOne (Core := sample_core healthy_socket) frame2 sample_closed
  = (Return tt, sample_closed, [SocketWrite bytes2]) /\
  send_onNext (Core := sample_core healthy_socket) frame2 sample_closed
  = (Return tt, sample_closed, [SocketWrite bytes2]) /\
  _active sample_late = false /\
  send_onError (Frame := SampleFrame) (mkError "producer failed") sample_late
  = (Return tt, sample_late, [OnError 3 (mkError "producer failed")]).
Proof.
  split; [apply sample_closed_reachable|]. repeat split.
Qed.

(** C3 as amended, at the closed sample connection. *)
Lemma active_only_falls_witness :
  reachable (Core := sample_core healthy_socket) sample_closed /\
  _active (state_after (forEach [DoSendOne frame1; DoReceiveRequest 3; DoClose]
                                (perform (Core := sample_core healthy_socket)))
                       sample_closed) = false /\
  socket_emit (Core := sample_core healthy_socket) (EvData bytes1) sample_closed
  = (Return tt, sample_closed, []) /\
  written (effects_of (sendOne (Core := sample_core healthy_socket) frame2) sample_closed)
  = [bytes2].
Proof.
  pose proof (@active_only_falls _ _ _ (sample_core healthy_socket) sample_closed
                sample_closed_reachable)
    as (_ & Hm & He & _ & _ & Hw & _).
  split; [apply sample_closed_reachable|].
  split; [apply Hm; reflexivity|].
  split; [apply He; reflexivity|].
  apply (Hw frame2 bytes2). reflexivity.
Defined.

(** C4 at the sample connection: a malformed chunk, an empty frame, the
    socket's [end], and a write on a broken socket. *)
Lemma every_failure_witness :
  reachable (Core := sample_core healthy_socket) sample_open /\
  _active sample_open = true /\
  socket_emit (Core := sample_core healthy_socket) (EvData malformed) sample_open
  = (Return tt, sample_closed,
     [OnError 1 (mkError "malformed frame"); OnError 2 (mkError "malformed frame");
      CloseResolve; OnComplete 1; OnComplete 2; Cancel 7;
      SocketRemoveAllListeners; SocketEnd]) /\
  onClose (state_after (_handleError (Frame := SampleFrame) (mkError "malformed frame"))
                       sample_open) = true /\
  sendOne (Core := sample_core healthy_socket) (mkFrame []) sample_open
  = _handleError (mkError "empty frame") sample_open /\
  socket_emit (Core := sample_core healthy_socket) EvEnd sample_open
  = _handleError (mkError "RSocketTcpClient: Socket closed unexpectedly.") sample_open /\
  reachable (Core := sample_core broken_socket) (sample_on broken_socket) /\
  sendOne (Core := sample_core broken_socket) frame2 (sample_on broken_socket)
  = (Return tt, sample_closed,
     [SocketWrite bytes2; OnError 1 (mkError "EPIPE"); OnError 2 (mkError "EPIPE");
      CloseResolve; OnComplete 1; OnComplete 2; Cancel 7;
      SocketRemoveAllListeners; SocketEnd]).
Proof.
  pose proof (@every_failure_runs_the_error_path _ _ _ (sample_core healthy_socket)
                sample_open (sample_on_reachable healthy_socket))
    as (_ & Hc & _ & Hd & Hs & _ & He).
  pose proof (@every_failure_runs_the_error_path _ _ _ (sample_core broken_socket)
                (sample_on broken_socket) (sample_on_reachable broken_socket))
    as (_ & _ & _ & _ & _ & Hw & _).
  split; [apply sample_on_reachable|]. split; [reflexivity|].
  split.
  { rewrite (proj2 (Hd malformed (mkError "malformed frame") eq_refl) eq_refl).
    reflexivity. }
  split; [apply Hc|].
  split; [apply (Hs (mkFrame []) (mkError "empty frame") eq_refl)|].
  split; [apply He; reflexivity|].
  split; [apply sample_on_reachable|].
  rewrite (Hw frame2 bytes2 (mkError "EPIPE") eq_refl eq_refl). reflexivity.
Defined.

(** C5 at the sample connection: both receivers get both frames, in order. *)
Lemma every_receiver_witness :
  reachable (Core := sample_core healthy_socket) sample_open /\
  deserializeFrames (RSocketCore := sample_core healthy_socket)
    (_buffer sample_open ++ bytes1 ++ bytes2) (_encoders sample_open)
  = Return ([frame1; frame2], []) /\
  _receivers sample_open = [1; 2] /\
  received 1 (effects_of (_handleData (Core := sample_core healthy_socket)
                            (bytes1 ++ bytes2)) sample_open) = [frame1; frame2] /\
  received 2 (effects_of (_handleData (Core := sample_core healthy_socket)
                            (bytes1 ++ bytes2)) sample_open) = [frame1; frame2].
Proof.
  pose proof (@every_receiver_gets_every_frame _ _ _ (sample_core healthy_socket)
                sample_open (bytes1 ++ bytes2) [frame1; frame2] []
                (sample_on_reachable healthy_socket) eq_refl)
    as (_ & Hrec & _).
  split; [apply sample_on_reachable|]. split; [reflexivity|]. split; [reflexivity|].
  split; apply Hrec; [left | right; left]; reflexivity.
Defined.

(** C6 at the sample connection: after the first chunk the buffer is the two
    bytes that follow the first frame. *)
Lemma buffer_witness :
  codec_contract (Core := sample_core healthy_socket) (_encoders sample_open) /\
  serialized (Core := sample_core healthy_socket)
    (_encoders sample_open) [frame1; frame2] [bytes1; bytes2] /\
  _buffer sample_open = [] /\
  concat [chunk1] ++ chunk2 = concat [bytes1; bytes2] /\
  _buffer (state_after (_handleData (Core := sample_core healthy_socket) chunk1)
                       sample_open) = [x00; x00] /\
  exists emitted pending emitted_bytes pending_bytes,
    [frame1; frame2] = emitted ++ pending /\
    serialized (Core := sample_core healthy_socket) (_encoders sample_open)
      emitted emitted_bytes /\
    serialized (Core := sample_core healthy_socket) (_encoders sample_open)
      pending pending_bytes /\
    concat [chunk1]
    = concat emitted_bytes
      ++ _buffer (state_after (feed (Core := sample_core healthy_socket) [chunk1])
                              sample_open).
Proof.
  pose proof (@buffer_is_the_unconsumed_tail _ _ _ (sample_core healthy_socket)
                sample_open) as (Hstep & _ & Hstream).
  split; [apply sample_codec_contract|]. split; [apply sample_serialized|].
  split; [reflexivity|]. split; [reflexivity|].
  split; [apply (Hstep chunk1 [frame1] [x00; x00]); reflexivity|].
  destruct (Hstream [frame1; frame2] [bytes1; bytes2] [chunk1] chunk2
              (sample_codec_contract healthy_socket None) sample_serialized
              eq_refl eq_refl)
    as (emitted & pending & eb & pb & H1 & H2 & H3 & _ & H5 & _).
  exists emitted, pending, eb, pb. repeat split; assumption.
Defined.


(** C9, as claimed, fails at the sample connection: subscriber 3 registered
    after [close()]; a frame that cannot be serialized runs the error path,
    which hands it [onError] and no [onComplete]. *)
Lemma error_without_completion :
  reachable (Core := sample_core healthy_socket) sample_late /\
  _receivers sample_late = [3] /\
  sendOne (Core := sample_core healthy_socket) (mkFrame []) sample_late
  = _handleError (mkError "empty frame") sample_late /\
  _handleError (Frame := SampleFrame) (mkError "empty frame") sample_late
  = (Return tt, sample_late, [OnError 3 (mkError "empty frame")]) /\
  completions 3 (effects_of (_handleError (Frame := SampleFrame) (mkError "empty frame"))
                            sample_late) = 0.
Proof.
  split; [apply sample_late_reachable|]. repeat split.
Qed.

(** C9 as amended, at the open and at the late sample connection. *)
Lemma error_then_completion_witness :
  reachable (Core := sample_core healthy_socket) sample_open /\
  _active sample_open = true /\
  effects_of (_handleError (Frame := SampleFrame) (mkError "reset")) sample_open
  = [OnError 1 (mkError "reset"); OnError 2 (mkError "reset");
     CloseResolve; OnComplete 1; OnComplete 2; Cancel 7;
     SocketRemoveAllListeners; SocketEnd] /\
  completions 1 (effects_of (_handleError (Frame := SampleFrame) (mkError "reset"))
                            sample_open) = 1.
Proof.
  pose proof (@error_then_completion_while_active _ _ _ (sample_core healthy_socket)
                sample_open (mkError "reset") (sample_on_reachable healthy_socket))
    as [Hopen _].
  destruct (Hopen eq_refl) as (He & _ & Hc).
  split; [apply sample_on_reachable|]. split; [reflexivity|].
  split; [exact He|].
  apply (Hc 1). left. reflexivity.
Defined.

(** C10 at the sample connection: receiver 1 cancels and requests again. *)
Lemma receiver_witness :
  reachable (Core := sample_core healthy_socket) sample_open /\
  _receivers (state_after (receive_cancel (Frame := SampleFrame) 1 ;; receive_request 1)
                          sample_open) = [2; 1] /\
  received 1
    (effects_of (_handleData (Core := sample_core healthy_socket) bytes2)
       (state_after (receive_cancel (Frame := SampleFrame) 1 ;; receive_request 1)
                    sample_open))
  = [frame2].
Proof.
  pose proof (@receiver_is_registered_on_request _ _ _ (sample_core healthy_socket)
                sample_open 1 (sample_on_reachable healthy_socket))
    as (_ & _ & _ & _ & _ & Hagain).
  cbv zeta in Hagain. destruct Hagain as (_ & _ & _ & Hdata).
  split; [apply sample_on_reachable|]. split; [reflexivity|].
  apply (Hdata bytes2 [frame2] []). reflexivity.
Defined.

(** X3 at the sample connection. *)
Lemma socket_close_event_witness :
  reachable (Core := sample_core healthy_socket) sample_open /\
  _active sample_open = true /\
  socket_emit (Core := sample_core healthy_socket) EvClose sample_open
  = (Return tt, sample_closed,
     [CloseResolve; OnComplete 1; OnComplete 2; Cancel 7;
      SocketRemoveAllListeners; SocketEnd]).
Proof.
  pose proof (@socket_close_event_closes_without_error _ _ _ (sample_core healthy_socket)
                sample_open (sample_on_reachable healthy_socket) eq_refl)
    as (He & _).
  split; [apply sample_on_reachable|]. split; [reflexivity | exact He].
Defined.


(** X5 at the sample connection: a malformed chunk, then [close()], a
    failing producer and the socket's [end]. *)
Lemma connection_is_released_once_witness :
  reachable (Core := sample_core healthy_socket) sample_open /\
  filter is_release
    (effects_of
       (forEach [DoSocketEmit (EvData malformed); DoClose;
                 DoSendOnError (mkError "late"); DoSocketEmit EvEnd]
                (perform (Core := sample_core healthy_socket))) sample_open)
  = [CloseResolve; SocketRemoveAllListeners; SocketEnd].
Proof.
  pose proof (@connection_is_released_once _ _ _ (sample_core healthy_socket)
                sample_open
                [DoSocketEmit (EvData malformed); DoClose;
                 DoSendOnError (mkError "late"); DoSocketEmit EvEnd]
                (sample_on_reachable healthy_socket))
    as (H & _).
  split; [apply sample_on_reachable | exact H].
Defined.

(** X7 at the closed sample connection. *)
Lemma closed_connection_witness :
  reachable (Core := sample_core healthy_socket) sample_closed /\
  _active sample_closed = false /\
  filter is_stream_signal
    (effects_of
       (forEach [DoReceiveRequest 3; DoSendOnSubscribe 9; DoSocketEmit (EvData bytes1);
                 DoSendOnError (mkError "late"); DoClose]
                (perform (Core := sample_core healthy_socket))) sample_closed)
  = [].
Proof.
  pose proof (@closed_connection_streams_nothing _ _ _ (sample_core healthy_socket)
                sample_closed
                [DoReceiveRequest 3; DoSendOnSubscribe 9; DoSocketEmit (EvData bytes1);
                 DoSendOnError (mkError "late"); DoClose]
                sample_closed_reachable eq_refl)
    as (H & _).
  split; [apply sample_closed_reachable|]. split; [reflexivity | exact H].
Defined.

(** X8 at the sample connection: receiver 1 cancels, then data and the
    socket's [end] arrive. *)
Lemma cancelled_receiver_witness :
  reachable (Core := sample_core healthy_socket) sample_open /\
  Forall (fun a : @Action SampleFrame => a <> DoReceiveRequest 1)
         [DoSocketEmit (EvData bytes1); DoReceiveCancel 2; DoSocketEmit EvEnd] /\
  filter (concerns 1)
    (effects_of
       (receive_cancel (Frame := SampleFrame) 1 ;;
        forEach [DoSocketEmit (EvData bytes1); DoReceiveCancel 2; DoSocketEmit EvEnd]
                (perform (Core := sample_core healthy_socket))) sample_open)
  = [].
Proof.
  assert (Hall : Forall (fun a : @Action SampleFrame => a <> DoReceiveRequest 1)
                   [DoSocketEmit (EvData bytes1); DoReceiveCancel 2; DoSocketEmit EvEnd]).
  { repeat constructor; discriminate. }
  pose proof (@cancelled_receiver_is_left_alone _ _ _ (sample_core healthy_socket)
                sample_open 1 _ (sample_on_reachable healthy_socket) Hall)
    as (H & _).
  split; [apply sample_on_reachable|]. split; [exact Hall | exact H].
Defined.

(** X9 at the sample connection: a complete frame followed by a malformed
    length prefix, in one chunk. *)
Lemma undecodable_chunk_witness :
  deserializeFrames (RSocketCore := sample_core healthy_socket)
    (_buffer sample_open ++ bytes1 ++ malformed) (_encoders sample_open)
  = Throw (mkError "malformed frame") /\
  received 1 (effects_of (_handleData (Core := sample_core healthy_socket)
                            (bytes1 ++ malformed)) sample_open) = [] /\
  _buffer (state_after (_handleData (Core := sample_core healthy_socket)
                          (bytes1 ++ malformed)) sample_open) = [].
Proof.
  pose proof (@undecodable_chunk_delivers_no_frame _ _ _ (sample_core healthy_socket)
                sample_open (bytes1 ++ malformed) (mkError "malformed frame") eq_refl)
    as (H1 & H2 & _).
  split; [reflexivity|]. split; [apply H1 | exact H2].
Defined.

(** X10 at the sample connection: "frame1" cut after its first payload byte. *)
Lemma frame_in_two_pieces_witness :
  codec_contract (Core := sample_core healthy_socket) (_encoders sample_open) /\
  serializeFrameWithLength (RSocketCore := sample_core healthy_socket)
    frame1 (_encoders sample_open) = Return bytes1 /\
  bytes1 = [x00; x00; x06; x66] ++ [x72; x61; x6d; x65; x31] /\
  _buffer sample_open = [] /\
  _handleData (Core := sample_core healthy_socket) [x00; x00; x06; x66] sample_open
  = (Return tt, set_buffer [x00; x00; x06; x66] sample_open, []) /\
  _handleData (Core := sample_core healthy_socket) [x72; x61; x6d; x65; x31]
    (set_buffer [x00; x00; x06; x66] sample_open)
  = (Return tt, sample_open, [OnNext 1 frame1; OnNext 2 frame1]).
Proof.
  assert (Hne : [x72; x61; x6d; x65; x31] <> []) by discriminate.
  pose proof (@frame_is_delivered_with_its_last_byte _ _ _ (sample_core healthy_socket)
                sample_open frame1 bytes1 [x00; x00; x06; x66] [x72; x61; x6d; x65; x31]
                (sample_codec_contract healthy_socket None) eq_refl eq_refl Hne eq_refl)
    as (H1 & _ & H3).
  split; [apply sample_codec_contract|]. split; [reflexivity|].
  split; [reflexivity|]. split; [reflexivity|]. split; [exact H1 | exact H3].
Defined.

(** X11 at the sample connection: writes before and after [close()]. *)
Lemma writes_witness :
  reachable (Core := sample_core healthy_socket) sample_open /\
  written
    (effects_of
       (forEach [DoSendOne frame1; DoSocketEmit (EvData bytes2); DoSendOnNext frame2;
                 DoSendOne (mkFrame []); DoClose; DoSendOne frame2]
                (perform (Core := sample_core healthy_socket))) sample_open)
  = [bytes1; bytes2; bytes2].
Proof.
  pose proof (@writes_are_the_frames_sent _ _ _ (sample_core healthy_socket)
                sample_open
                [DoSendOne frame1; DoSocketEmit (EvData bytes2); DoSendOnNext frame2;
                 DoSendOne (mkFrame []); DoClose; DoSendOne frame2]
                (sample_on_reachable healthy_socket))
    as H.
  split; [apply sample_on_reachable | exact H].
Defined.
